(** * Optimized elementwise multiplication kernel (op_mul)

    A shallow embedding of the optimized [mul.out] / [mul.Scalar_out]
    kernels: the shape classifier, the path selector, the execution
    strategies and the two operator entry points, over a store of tensor
    objects so that reads through [a], [b] and writes through [out] act on
    shared objects exactly as references do in the source. *)

From stdpp Require Import base numbers list option gmap.

Local Open Scope Z_scope.

(** ** Element types

    Modelled from the spec: the enumeration of element kinds (its
    declaration lives in a header that is not part of the sources at hand).
    These are the signed/unsigned integer kinds, the boolean kind, the
    floating kinds and the reduced-precision float kind [Half], i.e. the
    kinds the kernel's REALHB dispatch handles. *)
Inductive ScalarType : Set :=
  | Byte | Char | Short | Int | Long | Half | Float | Double | Bool.

#[global] Instance ScalarType_eq_dec : EqDecision ScalarType.
Proof. solve_decision. Defined.

(** [ElementwiseOptimizedPath] of the source. *)
Inductive ElementwiseOptimizedPath : Set :=
  | kNone
  | kTreatAs1d
  | kBroadcast2dBy1d
  | kBroadcast2dBy1dReverseArguments.

#[global] Instance ElementwiseOptimizedPath_eq_dec :
  EqDecision ElementwiseOptimizedPath.
Proof. solve_decision. Defined.

(** ** Tensors

    A tensor object carries its extents (outer to inner, [SizesType] is a
    signed 32-bit integer, kept as [Z]), its element-type tag and its
    element buffer, read and written positionally. *)
Record Tensor (val : Type) : Type := mkTensor {
  sizes : list Z;
  scalar_type : ScalarType;
  data : list val;
}.
Arguments mkTensor {val} _ _ _.
Arguments sizes {val} _.
Arguments scalar_type {val} _.
Arguments data {val} _.

(** [numel()] is the product of the extents. *)
Definition shape_numel (shape : list Z) : Z := foldr Z.mul 1 shape.

Definition numel {val} (t : Tensor val) : Z := shape_numel (sizes t).

(** A tensor object is well formed when its extents are non-negative and
    its buffer holds exactly [numel] elements. *)
Definition wf_shape (shape : list Z) : Prop := Forall (fun d => 0 <= d) shape.

Definition wf_tensor {val} (t : Tensor val) : Prop :=
  wf_shape (sizes t) /\ length (data t) = Z.to_nat (numel t).

(** ** Shape classifier *)

(** The source returns the first position whose extent is not 1 (or the
    end); the range from there to the end is the suffix returned here. *)
Fixpoint arrayref_begin_ignoring_leading_1s (arr : list Z) : list Z :=
  match arr with
  | [] => []
  | x :: rest =>
      if x =? 1 then arrayref_begin_ignoring_leading_1s rest else arr
  end.

(** [std::equal(first1, last1, first2)]: pairwise comparison of the first
    range against the elements starting at [first2]. *)
Fixpoint std_equal (xs ys : list Z) : bool :=
  match xs, ys with
  | [], _ => true
  | x :: xs', y :: ys' => (x =? y) && std_equal xs' ys'
  | _ :: _, [] => false
  end.

(** [ArrayRef::equals]. *)
Definition arrayref_equals (xs ys : list Z) : bool :=
  (length xs =? length ys)%nat && std_equal xs ys.

Definition sizes_match_ignoring_leading_1s (lhs rhs : list Z) : bool :=
  let lhs_begin := arrayref_begin_ignoring_leading_1s lhs in
  let rhs_begin := arrayref_begin_ignoring_leading_1s rhs in
  (length lhs_begin =? length rhs_begin)%nat && std_equal lhs_begin rhs_begin.

Definition select_broadcast_2d_by_1d_optimized_path {val}
    (lhs rhs : Tensor val) : ElementwiseOptimizedPath :=
  let lhs_begin := arrayref_begin_ignoring_leading_1s (sizes lhs) in
  let rhs_begin := arrayref_begin_ignoring_leading_1s (sizes rhs) in
  let lhs_size := length lhs_begin in
  let rhs_size := length rhs_begin in
  if (lhs_size =? 2)%nat && (rhs_size =? 1)%nat
     && (nth 1 lhs_begin 0 =? nth 0 rhs_begin 0)
  then kBroadcast2dBy1d
  else if (lhs_size =? 1)%nat && (rhs_size =? 2)%nat
          && (nth 1 rhs_begin 0 =? nth 0 lhs_begin 0)
  then kBroadcast2dBy1dReverseArguments
  else kNone.

Definition select_optimized_path {val}
    (a b out : Tensor val) : ElementwiseOptimizedPath :=
  let a_type := scalar_type a in
  let b_type := scalar_type b in
  let out_type := scalar_type out in
  if negb (bool_decide (a_type = b_type))
     || negb (bool_decide (a_type = out_type))
     || bool_decide (a_type = Half)
  then kNone
  else if arrayref_equals (sizes a) (sizes b)
          || ((numel a =? numel b)
              && ((numel a =? numel out)
                  || sizes_match_ignoring_leading_1s (sizes a) (sizes b)))
  then kTreatAs1d
  else select_broadcast_2d_by_1d_optimized_path a b.

(** ** Scalars

    A scalar is a tagged value with exactly one payload: boolean, integer
    or floating point. It is passed by value. *)
Inductive ScalarTag : Set := IsBoolean | IsIntegral | IsFloatingPoint.

Record Scalar (val : Type) : Type := mkScalar {
  tag : ScalarTag;
  payload : val;
}.
Arguments mkScalar {val} _ _.
Arguments tag {val} _.
Arguments payload {val} _.

(** ** Collaborators

    The kernel is written against a runtime it does not define: the element
    arithmetic of each C type, conversions between them, the promotion
    lattice, the cast-reachability rule and the container's resize
    operation. They are the fields of [Runtime]; every statement below
    holds for any runtime, under the laws it names. *)
Class Runtime : Type := {
  (** element values, of whatever C type their tensor's tag names *)
  val : Type;
  (** what storage holds where nothing has been written *)
  junk : val;
  (** [x * y] computed in the C type of the tag (scalar and vector lanes
      compute the same product) *)
  mul : ScalarType -> val -> val -> val;
  (** conversion between two different C types *)
  convert : ScalarType -> ScalarType -> val -> val;
  (** [promoteTypes(a, b, half_to_float)] *)
  promoteTypes : ScalarType -> ScalarType -> bool -> ScalarType;
  (** [canCast(from, to)] *)
  canCast : ScalarType -> ScalarType -> bool;
  (** the container's verdict on [resize_tensor(t, new_sizes)] *)
  resize_ok : Tensor val -> list Z -> bool;
  (** [utils::get_scalar_dtype(scalar)] *)
  get_scalar_dtype : Scalar val -> ScalarType;
  (** [utils::promote_type_with_scalar(t, scalar, half_to_float)] *)
  promote_type_with_scalar : ScalarType -> Scalar val -> bool -> ScalarType;
}.

(** [static_cast<TO>(v)] of a value of C type [from]: the identity when the
    two types coincide, a conversion otherwise. *)
Definition static_cast `{Runtime} (from to : ScalarType) (v : val) : val :=
  if decide (from = to) then v else convert from to v.

(** The type-dispatch switches: [ET_SWITCH_REALB_TYPES] covers every kind
    but [Half], [ET_SWITCH_REALHB_TYPES] covers them all; a tag outside the
    switch is a fatal check. *)
Definition is_realb (t : ScalarType) : bool :=
  match t with Half => false | _ => true end.

Definition is_realhb (t : ScalarType) : bool := true.

(** [ET_SWITCH_SCALAR_OBJ_TYPES] covers the three C types a scalar's
    payload can have. *)
Definition is_scalar_obj_type (t : ScalarType) : bool :=
  match t with Bool | Long | Double => true | _ => false end.

(** ** Outcomes

    [ET_KERNEL_CHECK] reports an error code through the context and
    returns; [ET_CHECK] aborts the program. *)
Inductive Error : Set := InvalidArgument.

#[global] Instance Error_eq_dec : EqDecision Error.
Proof. solve_decision. Defined.

Inductive Status : Set :=
  | Ok
  | Failed (e : Error)
  | Aborted.

#[global] Instance Status_eq_dec : EqDecision Status.
Proof. solve_decision. Defined.

Section Engine.
Context `{RT : Runtime}.

#[global] Instance Tensor_inhabited : Inhabited (Tensor val) :=
  populate (mkTensor [] Byte []).

(** The store of tensor objects, by identity. Two reference parameters
    bound to one object are two equal identities. *)
Record Result : Type := mkResult {
  status : Status;
  store : gmap nat (Tensor val);
}.

(** Element [i] of a buffer, as a raw read returns it. *)
Definition element (buf : list val) (i : nat) : val :=
  default junk (buf !! i).

Definition read (s : gmap nat (Tensor val)) (t : nat) (i : nat) : val :=
  element (data (s !!! t)) i.

Definition write (s : gmap nat (Tensor val)) (t : nat) (i : nat) (v : val)
    : gmap nat (Tensor val) :=
  let obj := s !!! t in
  <[t := mkTensor (sizes obj) (scalar_type obj) (<[i := v]> (data obj))]> s.

(** Modelled from the spec: the resize collaborator,
    [resize(tensor, new_shape) -> Ok | ResizeFailed]. On success the
    object takes the new shape and its buffer holds the new element
    count: existing elements stay in place, further ones hold whatever
    storage held. On failure the object is untouched. *)
Definition resize_tensor (s : gmap nat (Tensor val)) (out : nat)
    (new_sizes : list Z) : option (gmap nat (Tensor val)) :=
  let obj := s !!! out in
  if resize_ok obj new_sizes then
    Some (<[out := mkTensor new_sizes (scalar_type obj)
                     (resize (Z.to_nat (shape_numel new_sizes)) junk
                        (data obj))]> s)
  else None.

(** Modelled from the spec: the vectorized map helper,
    [out[i] = f(in[i])] for [i] in [[0, n)]. *)
Definition vec_map (f : val -> val) (out inp : nat) (n : Z)
    (s : gmap nat (Tensor val)) : gmap nat (Tensor val) :=
  foldl (fun s i => write s out i (f (read s inp i))) s
    (seq 0 (Z.to_nat n)).

(** Modelled from the spec: the vectorized pairwise helper,
    [out[i] = f(x[i], y[i])] for [i] in [[0, n)]. *)
Definition vec_map2 (f : val -> val -> val) (out x y : nat) (n : Z)
    (s : gmap nat (Tensor val)) : gmap nat (Tensor val) :=
  foldl (fun s i => write s out i (f (read s x i) (read s y i))) s
    (seq 0 (Z.to_nat n)).

(** Modelled from the spec: the row-broadcast helper. For each of [size]
    rows of length [size2], the row of [lhs] is combined elementwise
    with the vector [rhs], which is reused across rows. *)
Definition broadcasting_map_2d_by_1d (f : val -> val -> val)
    (out lhs rhs : nat) (size size2 : Z)
    (s : gmap nat (Tensor val)) : gmap nat (Tensor val) :=
  foldl (fun s outer_idx =>
           foldl (fun s inner_idx =>
                    let i := (outer_idx * Z.to_nat size2 + inner_idx)%nat in
                    write s out i (f (read s lhs i) (read s rhs inner_idx)))
                 s (seq 0 (Z.to_nat size2)))
        s (seq 0 (Z.to_nat size)).

(** Modelled from the spec: the broadcast result shape. Dimensions are
    aligned from the trailing end; an extent 1 broadcasts against the
    other operand's extent; dimensions absent on the shorter shape count
    as extent 1; any other mismatch is an incompatible pair. The shapes
    are taken innermost first here. *)
Fixpoint broadcast_shape_rev (xs ys : list Z) : option (list Z) :=
  match xs, ys with
  | [], _ => Some ys
  | _, [] => Some xs
  | x :: xs', y :: ys' =>
      if (x =? y) || (y =? 1) then cons x <$> broadcast_shape_rev xs' ys'
      else if x =? 1 then cons y <$> broadcast_shape_rev xs' ys'
      else None
  end.

Definition get_broadcast_target_size (a_sizes b_sizes : list Z)
    : option (list Z) :=
  reverse <$> broadcast_shape_rev (reverse a_sizes) (reverse b_sizes).

(** Modelled from the spec: the position in an operand's buffer that
    feeds output position [i]. The output position is split into
    per-dimension coordinates (innermost first); a coordinate along a
    dimension where the operand has extent 1, or no dimension at all,
    reads the operand's only entry there. *)
Fixpoint broadcast_index_rev (out_sizes t_sizes : list Z) (i : Z) : Z :=
  match out_sizes, t_sizes with
  | o :: os, x :: xs =>
      (if x =? 1 then 0 else i mod o)
      + x * broadcast_index_rev os xs (i / o)
  | _, _ => 0
  end.

Definition broadcast_index (out_sizes t_sizes : list Z) (i : nat) : nat :=
  Z.to_nat
    (broadcast_index_rev (reverse out_sizes) (reverse t_sizes) (Z.of_nat i)).

(** Modelled from the spec: the general elementwise loop,
    [out[i] = f(a[ia], b[ib])] for every output position, the operands
    being read at their broadcast positions. *)
Definition apply_binary_elementwise_fn (f : val -> val -> val)
    (a b out : nat) (s : gmap nat (Tensor val)) : gmap nat (Tensor val) :=
  let out_sizes := sizes (s !!! out) in
  let a_sizes := sizes (s !!! a) in
  let b_sizes := sizes (s !!! b) in
  foldl (fun s i =>
           write s out i
             (f (read s a (broadcast_index out_sizes a_sizes i))
                (read s b (broadcast_index out_sizes b_sizes i))))
        s (seq 0 (Z.to_nat (numel (s !!! out)))).

(** Modelled from the spec: the output is resized to the broadcast
    result shape; an incompatible pair of shapes, or a refused resize, is
    an error. *)
Definition resize_to_broadcast_target_size (s : gmap nat (Tensor val))
    (a b out : nat) : option (gmap nat (Tensor val)) :=
  match get_broadcast_target_size (sizes (s !!! a)) (sizes (s !!! b)) with
  | Some target => resize_tensor s out target
  | None => None
  end.

(** *** The execution strategies of [opt_mul_out]

    Each definition is one branch of the source function; the element
    type tags are those read on entry. *)

(** The scalar shortcut ([b.numel() == 1], homogeneous types). *)
Definition scalar_shortcut (a_type b_type : ScalarType)
    (s : gmap nat (Tensor val)) (a b out : nat) : Result :=
  match resize_tensor s out (sizes (s !!! a)) with
  | None => mkResult (Failed InvalidArgument) s
  | Some s1 =>
      if is_realb a_type && is_realb b_type then
        let b_val := read s1 b 0 in
        let b_casted := static_cast b_type a_type b_val in
        mkResult Ok
          (vec_map (fun x => mul a_type x b_casted) out a
             (numel (s1 !!! out)) s1)
      else mkResult Aborted s1
  end.

(** [kTreatAs1d]. *)
Definition treat_as_1d (out_type : ScalarType)
    (s : gmap nat (Tensor val)) (a b out : nat) : Result :=
  match resize_tensor s out (sizes (s !!! a)) with
  | None => mkResult (Failed InvalidArgument) s
  | Some s1 =>
      if is_realb out_type then
        mkResult Ok
          (vec_map2 (mul out_type) out a b (numel (s1 !!! out)) s1)
      else mkResult Aborted s1
  end.

(** [kBroadcast2dBy1d] and [kBroadcast2dBy1dReverseArguments]. *)
Definition broadcast_2d_by_1d (selected_optimized_path :
    ElementwiseOptimizedPath) (out_type : ScalarType)
    (s : gmap nat (Tensor val)) (a b out : nat) : Result :=
  let '(lhs, rhs) :=
    if decide (selected_optimized_path = kBroadcast2dBy1dReverseArguments)
    then (b, a) else (a, b) in
  match resize_tensor s out (sizes (s !!! lhs)) with
  | None => mkResult (Failed InvalidArgument) s
  | Some s1 =>
      if is_realb out_type then
        let lhs_sizes := sizes (s1 !!! lhs) in
        let lhs_dim := length lhs_sizes in
        mkResult Ok
          (broadcasting_map_2d_by_1d (mul out_type) out lhs rhs
             (nth (lhs_dim - 2) lhs_sizes 0)
             (nth (lhs_dim - 1) lhs_sizes 0) s1)
      else mkResult Aborted s1
  end.

(** The general casting and broadcasting path ([kNone]). *)
Definition general_path (a_type b_type out_type : ScalarType)
    (s : gmap nat (Tensor val)) (a b out : nat) : Result :=
  let common_type := promoteTypes a_type b_type true in
  if negb (canCast common_type out_type) then
    mkResult (Failed InvalidArgument) s
  else
    match resize_to_broadcast_target_size s a b out with
    | None => mkResult (Failed InvalidArgument) s
    | Some s1 =>
        if is_realhb a_type && is_realhb b_type && is_realhb out_type then
          mkResult Ok
            (apply_binary_elementwise_fn
               (fun val_a val_b =>
                  let a_casted := static_cast a_type common_type val_a in
                  let b_casted := static_cast b_type common_type val_b in
                  let value := mul common_type a_casted b_casted in
                  static_cast common_type out_type value)
               a b out s1)
        else mkResult Aborted s1
    end.

(** [opt_mul_out]. The source calls itself with the operands swapped
    when only the left operand has a single element; the recursion is
    bounded by [fuel], and [opt_mul_out_fuel_enough] below shows that two
    units always suffice. *)
Fixpoint opt_mul_out_fuel (fuel : nat) (s : gmap nat (Tensor val))
    (a b out : nat) : option Result :=
  match fuel with
  | O => None
  | S fuel' =>
      let a_type := scalar_type (s !!! a) in
      let b_type := scalar_type (s !!! b) in
      let out_type := scalar_type (s !!! out) in
      let paths :=
        let selected_optimized_path :=
          select_optimized_path (s !!! a) (s !!! b) (s !!! out) in
        if decide (selected_optimized_path = kTreatAs1d) then
          treat_as_1d out_type s a b out
        else if decide (selected_optimized_path <> kNone) then
          broadcast_2d_by_1d selected_optimized_path out_type s a b out
        else general_path a_type b_type out_type s a b out in
      if numel (s !!! b) =? 1 then
        if bool_decide (a_type = b_type) && bool_decide (a_type = out_type)
           && negb (bool_decide (a_type = Half))
        then Some (scalar_shortcut a_type b_type s a b out)
        else Some paths
      else if numel (s !!! a) =? 1 then opt_mul_out_fuel fuel' s b a out
      else Some paths
  end.

Definition opt_mul_out (s : gmap nat (Tensor val)) (a b out : nat)
    : Result :=
  default (mkResult Aborted s) (opt_mul_out_fuel 2 s a b out).

(** [opt_mul_scalar_out]. Both checks of this operator are [ET_CHECK]s.
    In the general loop the product of the two [CTYPE_IN] operands is
    converted to [CTYPE_OUT] as it is stored. *)
Definition opt_mul_scalar_out (s : gmap nat (Tensor val)) (a : nat)
    (b : Scalar val) (out : nat) : Result :=
  let a_type := scalar_type (s !!! a) in
  let b_type := get_scalar_dtype b in
  let common_type := promote_type_with_scalar a_type b false in
  let out_type := scalar_type (s !!! out) in
  if negb (bool_decide (common_type = out_type)) then mkResult Aborted s
  else
    let common_type :=
      if decide (common_type = Half) then Float else common_type in
    match resize_tensor s out (sizes (s !!! a)) with
    | None => mkResult Aborted s
    | Some s1 =>
        if bool_decide (a_type = common_type)
           && bool_decide (a_type = out_type)
           && negb (bool_decide (a_type = Half))
        then
          if is_realb a_type && is_scalar_obj_type b_type then
            let b_val := payload b in
            let b_casted := static_cast b_type a_type b_val in
            mkResult Ok
              (vec_map (fun x => mul a_type x b_casted) out a
                 (numel (s1 !!! out)) s1)
          else mkResult Aborted s1
        else
          if is_realhb a_type && is_scalar_obj_type b_type
             && is_realb common_type && is_realhb out_type
          then
            let b_val := payload b in
            let b_casted := static_cast b_type common_type b_val in
            let n := numel (s1 !!! a) in
            mkResult Ok
              (foldl (fun s i =>
                        write s out i
                          (static_cast common_type out_type
                             (mul common_type
                                (static_cast a_type common_type
                                   (read s a i))
                                b_casted)))
                     s1 (seq 0 (Z.to_nat n)))
          else mkResult Aborted s1
    end.

(** *** A call on three separate tensor objects

    [multiply A B O] runs [opt_mul_out] on a store holding the operands
    and the output as three distinct objects, and returns the status with
    the output object as the call leaves it. *)
Definition call_store (A B O : Tensor val) : gmap nat (Tensor val) :=
  <[2%nat := O]> (<[1%nat := B]> (<[0%nat := A]> ∅)).

Definition multiply (A B O : Tensor val) : Status * Tensor val :=
  let r := opt_mul_out (call_store A B O) 0 1 2 in
  (status r, store r !!! 2%nat).

(** The same call sent straight down the general path, whatever the
    selector would have chosen. *)
Definition multiply_general (A B O : Tensor val) : Status * Tensor val :=
  let r := general_path (scalar_type A) (scalar_type B) (scalar_type O)
             (call_store A B O) 0 1 2 in
  (status r, store r !!! 2%nat).

(** The scalar-broadcast strategy in the specification's words: the
    output is resized to the tensor operand's shape and every element is
    multiplied by the single value [v]; a refused resize is an
    invalid-argument failure. *)
Definition scalar_broadcast (T : Tensor val) (v : val) (O : Tensor val)
    : Status * Tensor val :=
  if resize_ok O (sizes T) then
    (Ok, mkTensor (sizes T) (scalar_type O)
           ((fun x => mul (scalar_type T) x v) <$> data T))
  else (Failed InvalidArgument, O).

(** *** A call of the scalar operator on two separate tensor objects

    [multiply_scalar A c O] runs [opt_mul_scalar_out] on a store holding
    the operand and the output as two distinct objects. *)
Definition scalar_call_store (A O : Tensor val) : gmap nat (Tensor val) :=
  <[2%nat := O]> (<[0%nat := A]> ∅).

Definition multiply_scalar (A : Tensor val) (c : Scalar val) (O : Tensor val)
    : Status * Tensor val :=
  let r := opt_mul_scalar_out (scalar_call_store A O) 0 c 2 in
  (status r, store r !!! 2%nat).

(** The type in which the scalar operator computes: the promoted type,
    with [Half] replaced by [Float]. *)
Definition scalar_compute_type (a_type : ScalarType) (c : Scalar val)
    : ScalarType :=
  let common_type := promote_type_with_scalar a_type c false in
  if decide (common_type = Half) then Float else common_type.
End Engine.

(** ** A reference runtime on integer-valued data

    Modelled from the spec: one concrete runtime, used for the concrete
    scenarios. Values are integers. The integer kinds wrap around at their
    width, the boolean kind holds 0 or 1, and the floating kinds are
    represented on integer-valued data, where their products are exact.
    Promotion picks the smallest kind able to represent both operands,
    floating kinds dominate integer kinds, and [Half] widens to [Float] on
    request. A cast is unreachable from a floating kind to an integer
    kind, and from any other kind to the boolean kind. The container
    accepts any new shape of the rank the tensor already has. *)
Module Reference.
Definition wrap_unsigned (w z : Z) : Z := z mod 2 ^ w.

Definition wrap_signed (w z : Z) : Z :=
  (z + 2 ^ (w - 1)) mod 2 ^ w - 2 ^ (w - 1).

Definition to_kind (t : ScalarType) (z : Z) : Z :=
  match t with
  | Byte => wrap_unsigned 8 z
  | Char => wrap_signed 8 z
  | Short => wrap_signed 16 z
  | Int => wrap_signed 32 z
  | Long => wrap_signed 64 z
  | Bool => if z =? 0 then 0 else 1
  | Half | Float | Double => z
  end.

Definition is_floating (t : ScalarType) : bool :=
  match t with Half | Float | Double => true | _ => false end.

Definition rank (t : ScalarType) : Z :=
  match t with
  | Bool => 0 | Byte => 1 | Char => 1 | Short => 2 | Int => 3 | Long => 4
  | Half => 5 | Float => 6 | Double => 7
  end.

Definition promote (a b : ScalarType) (half_to_float : bool) : ScalarType :=
  let promoted :=
    match a, b with
    | Byte, Char | Char, Byte => Short
    | _, _ => if rank a <? rank b then b else a
    end in
  if half_to_float && bool_decide (promoted = Half) then Float
  else promoted.

Definition can_cast (from to : ScalarType) : bool :=
  if is_floating from && negb (is_floating to) && negb (bool_decide (to = Bool))
  then false
  else if negb (bool_decide (from = Bool)) && bool_decide (to = Bool)
  then false
  else true.

Definition scalar_dtype (b : Scalar Z) : ScalarType :=
  match tag b with
  | IsBoolean => Bool
  | IsIntegral => Long
  | IsFloatingPoint => Double
  end.

Definition promote_with_scalar (t : ScalarType) (b : Scalar Z)
    (half_to_float : bool) : ScalarType :=
  let t := if half_to_float && bool_decide (t = Half) then Float else t in
  match tag b with
  | IsFloatingPoint => if is_floating t then t else Float
  | IsIntegral => if bool_decide (t = Bool) then Long else t
  | IsBoolean => t
  end.

#[export] Instance runtime : Runtime := {|
  val := Z;
  junk := 0;
  mul := fun t x y => to_kind t (x * y);
  convert := fun _ to v => to_kind to v;
  promoteTypes := promote;
  canCast := can_cast;
  resize_ok := fun t new_sizes =>
    bool_decide (length new_sizes = length (sizes t));
  get_scalar_dtype := scalar_dtype;
  promote_type_with_scalar := promote_with_scalar;
|}.
End Reference.

(** ** Output objects in closed form *)

Section ClosedForms.
Context `{RT : Runtime}.

(** The output object right after a successful resize. *)
Definition resized (O : Tensor val) (new_sizes : list Z) : Tensor val :=
  mkTensor new_sizes (scalar_type O)
    (resize (Z.to_nat (shape_numel new_sizes)) junk (data O)).

(** The output object of shape [new_sizes] whose position [i] holds
    [h i]. *)
Definition filled (O : Tensor val) (new_sizes : list Z) (h : nat -> val)
    : Tensor val :=
  mkTensor new_sizes (scalar_type O)
    (h <$> seq 0 (Z.to_nat (shape_numel new_sizes))).

(** What each branch of [opt_mul_out] does to the output object when
    the output is a different object from both operands: the status,
    and the new output object if the output was touched at all. These
    are not further definitions of the kernel; [opt_mul_out_separate]
    below proves that the kernel computes them. *)
Definition scalar_shortcut_on (A B O : Tensor val)
    : Status * option (Tensor val) :=
  let a_type := scalar_type A in
  let b_type := scalar_type B in
  if resize_ok O (sizes A) then
    if is_realb a_type && is_realb b_type then
      (Ok, Some (filled O (sizes A)
                   (fun i =>
                      mul a_type (element (data A) i)
                        (static_cast b_type a_type (element (data B) 0)))))
    else (Aborted, Some (resized O (sizes A)))
  else (Failed InvalidArgument, None).

Definition treat_as_1d_on (A B O : Tensor val)
    : Status * option (Tensor val) :=
  let out_type := scalar_type O in
  if resize_ok O (sizes A) then
    if is_realb out_type then
      (Ok, Some (filled O (sizes A)
                   (fun i =>
                      mul out_type (element (data A) i)
                        (element (data B) i))))
    else (Aborted, Some (resized O (sizes A)))
  else (Failed InvalidArgument, None).

Definition rows_written (out_type : ScalarType) (L V : Tensor val)
    (rows cols : nat) (buf : list val) : list val :=
  foldl (fun l r =>
           foldl (fun l c =>
                    <[(r * cols + c)%nat :=
                        mul out_type (element (data L) (r * cols + c))
                          (element (data V) c)]> l)
                 l (seq 0 cols))
        buf (seq 0 rows).

Definition broadcast_2d_by_1d_on (L V O : Tensor val)
    : Status * option (Tensor val) :=
  let out_type := scalar_type O in
  if resize_ok O (sizes L) then
    if is_realb out_type then
      let lhs_dim := length (sizes L) in
      let rows := Z.to_nat (nth (lhs_dim - 2) (sizes L) 0) in
      let cols := Z.to_nat (nth (lhs_dim - 1) (sizes L) 0) in
      (Ok, Some (mkTensor (sizes L) out_type
                   (rows_written out_type L V rows cols
                      (data (resized O (sizes L))))))
    else (Aborted, Some (resized O (sizes L)))
  else (Failed InvalidArgument, None).

Definition general_path_on (A B O : Tensor val)
    : Status * option (Tensor val) :=
  let a_type := scalar_type A in
  let b_type := scalar_type B in
  let out_type := scalar_type O in
  let common_type := promoteTypes a_type b_type true in
  if negb (canCast common_type out_type) then (Failed InvalidArgument, None)
  else
    match get_broadcast_target_size (sizes A) (sizes B) with
    | None => (Failed InvalidArgument, None)
    | Some target =>
        if resize_ok O target then
          (Ok, Some (filled O target
                       (fun i =>
                          static_cast common_type out_type
                            (mul common_type
                               (static_cast a_type common_type
                                  (element (data A)
                                     (broadcast_index target (sizes A) i)))
                               (static_cast b_type common_type
                                  (element (data B)
                                     (broadcast_index target (sizes B) i)))))))
        else (Failed InvalidArgument, None)
    end.

Definition paths_on (A B O : Tensor val) : Status * option (Tensor val) :=
  match select_optimized_path A B O with
  | kTreatAs1d => treat_as_1d_on A B O
  | kBroadcast2dBy1d => broadcast_2d_by_1d_on A B O
  | kBroadcast2dBy1dReverseArguments => broadcast_2d_by_1d_on B A O
  | kNone => general_path_on A B O
  end.

Definition type_gate (A B O : Tensor val) : bool :=
  bool_decide (scalar_type A = scalar_type B)
  && bool_decide (scalar_type A = scalar_type O)
  && negb (bool_decide (scalar_type A = Half)).

Definition single_call_on (A B O : Tensor val)
    : Status * option (Tensor val) :=
  if (numel B =? 1) && type_gate A B O then scalar_shortcut_on A B O
  else paths_on A B O.

(** The operands in the order in which the call, or its self-call, ends
    up treating them. *)
Definition effective_operands (A B : Tensor val) : Tensor val * Tensor val :=
  if numel B =? 1 then (A, B)
  else if numel A =? 1 then (B, A)
  else (A, B).

Definition opt_mul_out_on (A B O : Tensor val)
    : Status * option (Tensor val) :=
  single_call_on (effective_operands A B).1 (effective_operands A B).2 O.

(** Putting such an outcome back into the store. *)
Definition into_store (s : gmap nat (Tensor val)) (out : nat)
    (r : Status * option (Tensor val)) : Result :=
  mkResult r.1 (match r.2 with Some T => <[out := T]> s | None => s end).
End ClosedForms.

(** ** The shape rules in the specification's words *)

(** Stripping discards the contiguous leading prefix of extent-1
    dimensions and nothing else: [suffix] is what remains of [shape]. *)
Definition strips_to (shape suffix : list Z) : Prop :=
  exists k : nat, shape = replicate k 1 ++ suffix /\ head suffix <> Some 1.

(** Two shapes are equal ignoring leading 1s when, after stripping, the
    remaining suffixes have equal length and equal values pairwise. *)
Definition equal_ignoring_leading_1s (lhs rhs : list Z) : Prop :=
  exists sl sr : list Z,
    strips_to lhs sl /\ strips_to rhs sr /\
    length sl = length sr /\ (forall i : nat, sl !! i = sr !! i).

(** Row [r] of a buffer laid out as rows of [cols] elements. *)
Definition row {val} (cols r : nat) (buf : list val) : list val :=
  take cols (drop (r * cols) buf).

(** The selector's answer for the same operands in the other order. *)
Definition swap_path (p : ElementwiseOptimizedPath)
    : ElementwiseOptimizedPath :=
  match p with
  | kBroadcast2dBy1d => kBroadcast2dBy1dReverseArguments
  | kBroadcast2dBy1dReverseArguments => kBroadcast2dBy1d
  | p => p
  end.

(** The rule under which two operands are flattened to one dimension. *)
Definition flatten_rule {val} (a b out : Tensor val) : Prop :=
  sizes a = sizes b \/
  (numel a = numel b /\
   (numel out = numel a \/ equal_ignoring_leading_1s (sizes a) (sizes b))).

(** The type gate of every fast path. *)
Definition homogeneous_not_half {val} (a b out : Tensor val) : Prop :=
  scalar_type a = scalar_type b /\ scalar_type a = scalar_type out /\
  scalar_type a <> Half.

(** * Properties of the shape classifier and the path selector *)

Lemma std_equal_eq (xs ys : list Z) :
  length xs = length ys -> std_equal xs ys = true <-> xs = ys.
Proof.
  revert ys. induction xs as [|x xs IH]; intros [|y ys] Hlen;
    simpl in *; try lia; try done.
  rewrite andb_true_iff, Z.eqb_eq, IH by lia.
  split; [intros [-> ->]; done | intros [= -> ->]; done].
Qed.

Lemma arrayref_equals_eq (xs ys : list Z) :
  arrayref_equals xs ys = true <-> xs = ys.
Proof.
  unfold arrayref_equals. rewrite andb_true_iff, Nat.eqb_eq. split.
  - intros [Hlen Heq]. by apply std_equal_eq.
  - intros ->. split; [done | by apply std_equal_eq].
Qed.

Lemma arrayref_begin_strips (shape : list Z) :
  strips_to shape (arrayref_begin_ignoring_leading_1s shape).
Proof.
  induction shape as [|x rest IH]; simpl.
  - exists 0%nat. by split.
  - destruct (Z.eqb_spec x 1) as [-> | Hne].
    + destruct IH as (k & Hk & Hhd). exists (S k). simpl.
      split; [by rewrite <- Hk | done].
    + exists 0%nat. split; [done |]. simpl. congruence.
Qed.

Lemma strips_to_unique (shape suffix : list Z) :
  strips_to shape suffix ->
  suffix = arrayref_begin_ignoring_leading_1s shape.
Proof.
  intros (k & -> & Hhd). induction k as [|k IH]; simpl.
  - destruct suffix as [|x rest]; [done |]. simpl in *.
    destruct (Z.eqb_spec x 1) as [-> | _]; [congruence | done].
  - done.
Qed.

Lemma strips_to_iff (shape suffix : list Z) :
  strips_to shape suffix <->
  suffix = arrayref_begin_ignoring_leading_1s shape.
Proof.
  split; [apply strips_to_unique | intros ->; apply arrayref_begin_strips].
Qed.

Lemma sizes_match_ignoring_leading_1s_spec (lhs rhs : list Z) :
  sizes_match_ignoring_leading_1s lhs rhs = true <->
  equal_ignoring_leading_1s lhs rhs.
Proof.
  unfold sizes_match_ignoring_leading_1s, equal_ignoring_leading_1s.
  rewrite andb_true_iff, Nat.eqb_eq. split.
  - intros [Hlen Heq]. apply std_equal_eq in Heq; [|done].
    exists (arrayref_begin_ignoring_leading_1s lhs),
      (arrayref_begin_ignoring_leading_1s rhs).
    split; [apply arrayref_begin_strips |].
    split; [apply arrayref_begin_strips |].
    split; [done |]. intros i. by rewrite Heq.
  - intros (sl & sr & Hl & Hr & Hlen & Hnth).
    apply strips_to_unique in Hl, Hr. subst sl sr.
    split; [done |]. apply std_equal_eq; [done |]. by apply list_eq.
Qed.

Lemma type_gate_spec {val} (a b out : Tensor val) :
  negb (bool_decide (scalar_type a = scalar_type b))
  || negb (bool_decide (scalar_type a = scalar_type out))
  || bool_decide (scalar_type a = Half) = false <->
  homogeneous_not_half a b out.
Proof.
  unfold homogeneous_not_half.
  repeat case_bool_decide; simpl; split; try done; intros (? & ? & ?); done.
Qed.

Lemma flatten_rule_spec {val} (a b out : Tensor val) :
  arrayref_equals (sizes a) (sizes b)
  || ((numel a =? numel b)
      && ((numel a =? numel out)
          || sizes_match_ignoring_leading_1s (sizes a) (sizes b))) = true <->
  flatten_rule a b out.
Proof.
  unfold flatten_rule.
  rewrite orb_true_iff, andb_true_iff, orb_true_iff, arrayref_equals_eq,
    !Z.eqb_eq, sizes_match_ignoring_leading_1s_spec.
  intuition congruence.
Qed.

Lemma select_optimized_path_mismatch {val} (a b out : Tensor val) :
  ~ homogeneous_not_half a b out -> select_optimized_path a b out = kNone.
Proof.
  intros Hty. unfold select_optimized_path.
  destruct (negb _ || negb _ || bool_decide _) eqn:Hgate; [done |].
  apply type_gate_spec in Hgate. done.
Qed.

Lemma select_broadcast_2d_by_1d_not_flatten {val} (lhs rhs : Tensor val) :
  select_broadcast_2d_by_1d_optimized_path lhs rhs <> kTreatAs1d.
Proof.
  unfold select_broadcast_2d_by_1d_optimized_path.
  repeat case_match; done.
Qed.

Lemma select_optimized_path_homogeneous {val} (a b out : Tensor val) :
  homogeneous_not_half a b out ->
  select_optimized_path a b out =
    if arrayref_equals (sizes a) (sizes b)
       || ((numel a =? numel b)
           && ((numel a =? numel out)
               || sizes_match_ignoring_leading_1s (sizes a) (sizes b)))
    then kTreatAs1d
    else select_broadcast_2d_by_1d_optimized_path a b.
Proof.
  intros Hty. apply type_gate_spec in Hty.
  unfold select_optimized_path. by rewrite Hty.
Qed.

(** C2. The selector returns the flattened path exactly when the three
    element types are identical and not [Half] and the flatten rule holds
    (equal raw shapes, or equal element counts together with an output of
    that count or shapes equal ignoring leading 1s); a type mismatch gives
    no optimization whatever the shapes. *)
Theorem select_optimized_path_flatten_iff {val} (a b out : Tensor val) :
  (select_optimized_path a b out = kTreatAs1d <->
   homogeneous_not_half a b out /\ flatten_rule a b out) /\
  (scalar_type a <> scalar_type b \/ scalar_type a <> scalar_type out ->
   select_optimized_path a b out = kNone).
Proof.
  split.
  - destruct (decide (homogeneous_not_half a b out)) as [Hty | Hty].
    + rewrite select_optimized_path_homogeneous by done.
      rewrite <- flatten_rule_spec.
      destruct (arrayref_equals _ _ || _) eqn:Hrule.
      * tauto.
      * pose proof (select_broadcast_2d_by_1d_not_flatten a b).
        split; [done | intros [_ ?]; done].
    + rewrite select_optimized_path_mismatch by done.
      split; [done | tauto].
  - intros Hmis. apply select_optimized_path_mismatch.
    unfold homogeneous_not_half. tauto.
Qed.

Lemma select_broadcast_2d_by_1d_spec {val} (lhs rhs : Tensor val)
    (sl sr : list Z) :
  strips_to (sizes lhs) sl -> strips_to (sizes rhs) sr ->
  (select_broadcast_2d_by_1d_optimized_path lhs rhs = kBroadcast2dBy1d <->
   length sl = 2%nat /\ length sr = 1%nat /\ sl !! 1%nat = sr !! 0%nat) /\
  (select_broadcast_2d_by_1d_optimized_path lhs rhs
     = kBroadcast2dBy1dReverseArguments <->
   length sl = 1%nat /\ length sr = 2%nat /\ sr !! 1%nat = sl !! 0%nat) /\
  (length sl = 0%nat \/ length sr = 0%nat ->
   select_broadcast_2d_by_1d_optimized_path lhs rhs = kNone).
Proof.
  intros Hl%strips_to_unique Hr%strips_to_unique.
  unfold select_broadcast_2d_by_1d_optimized_path. rewrite <- Hl, <- Hr.
  destruct sl as [|x [|y [|? ?]]]; destruct sr as [|u [|v [|? ?]]]; simpl;
    repeat split; try (intros; done); try (intros (? & ? & ?); done);
    try (intros [? | ?]; done);
    try (destruct (Z.eqb_spec y u); (intros; congruence) || tauto);
    try (destruct (Z.eqb_spec v x); (intros; congruence) || tauto).
  - intros (_ & _ & [= ->]). by rewrite Z.eqb_refl.
  - intros (_ & _ & [= ->]). by rewrite Z.eqb_refl.
Qed.

(** C3. Among operands of identical non-[Half] types that do not satisfy
    the flatten rule, the selector returns the row-broadcast path exactly
    when the left shape strips to rank 2, the right one to rank 1 and the
    left trailing extent is the right extent; the mirrored situation gives
    the swapped variant; a shape that strips to rank 0 gives no fast
    path. *)
Theorem select_optimized_path_broadcast_iff {val} (a b out : Tensor val)
    (sl sr : list Z) :
  homogeneous_not_half a b out ->
  ~ flatten_rule a b out ->
  strips_to (sizes a) sl ->
  strips_to (sizes b) sr ->
  (select_optimized_path a b out = kBroadcast2dBy1d <->
   length sl = 2%nat /\ length sr = 1%nat /\ sl !! 1%nat = sr !! 0%nat) /\
  (select_optimized_path a b out = kBroadcast2dBy1dReverseArguments <->
   length sl = 1%nat /\ length sr = 2%nat /\ sr !! 1%nat = sl !! 0%nat) /\
  (length sl = 0%nat \/ length sr = 0%nat ->
   select_optimized_path a b out = kNone).
Proof.
  intros Hty Hrule Hl Hr.
  rewrite select_optimized_path_homogeneous by done.
  destruct (arrayref_equals _ _ || _) eqn:Hflat.
  - apply flatten_rule_spec in Hflat. done.
  - by apply select_broadcast_2d_by_1d_spec.
Qed.

(** * The execution loops on objects that do not alias the output *)

Section ListFacts.
Context {A : Type}.
Implicit Types (h : nat -> A) (l : list A).

(** Writing [h i] at the positions [base], ..., [base + n - 1]. *)
Lemma foldl_insert_seq h n : forall base l,
  (base + n <= length l)%nat ->
  foldl (fun l i => <[i := h i]> l) l (seq base n)
  = take base l ++ (h <$> seq base n) ++ drop (base + n) l.
Proof.
  induction n as [|n IH]; intros base l Hlen; simpl.
  - by rewrite Nat.add_0_r, take_drop.
  - rewrite IH by (rewrite length_insert; lia).
    destruct (lookup_lt_is_Some_2 l base) as [x Hx]; [lia |].
    rewrite (take_S_r _ _ (h base)) by
      (rewrite list_lookup_insert_eq by lia; done).
    rewrite take_insert_ge by lia.
    rewrite drop_insert_lt by lia.
    rewrite <- app_assoc. simpl. do 4 f_equal. lia.
Qed.

(** Writing every position of a buffer in turn. *)
Lemma foldl_insert_all h l :
  foldl (fun l i => <[i := h i]> l) l (seq 0 (length l))
  = h <$> seq 0 (length l).
Proof.
  rewrite foldl_insert_seq by lia. simpl.
  by rewrite drop_all, app_nil_r.
Qed.

(** Row after row, each row written left to right. *)
Lemma foldl_insert_rows h (cols : nat) : forall rows l,
  (rows * cols <= length l)%nat ->
  foldl (fun l r =>
           foldl (fun l c => <[(r * cols + c)%nat := h (r * cols + c)%nat]> l)
                 l (seq 0 cols))
        l (seq 0 rows)
  = (h <$> seq 0 (rows * cols)) ++ drop (rows * cols) l.
Proof.
  induction rows as [|rows IH]; intros l Hlen.
  - done.
  - rewrite seq_S, foldl_app, IH by lia. simpl.
    rewrite <- (foldl_fmap (fun l i => <[i := h i]> l) _ (seq 0 cols)
                  (Nat.add (rows * cols))).
    rewrite fmap_add_seq, Nat.add_0_r.
    rewrite foldl_insert_seq.
    2:{ rewrite length_app, length_fmap, length_seq, length_drop. lia. }
    rewrite take_app_length' by (by rewrite length_fmap, length_seq).
    rewrite drop_app_add' by (by rewrite length_fmap, length_seq).
    rewrite drop_drop.
    replace (cols + rows * cols)%nat with (rows * cols + cols)%nat by lia.
    by rewrite seq_app, fmap_app, <- app_assoc.
Qed.
End ListFacts.

Section LoopFacts.
Context `{RT : Runtime}.
Implicit Types (s : gmap nat (Tensor val)) (O T : Tensor val).

Lemma read_insert_ne s out T t i :
  t <> out -> read (<[out := T]> s) t i = read s t i.
Proof. intros Hne. unfold read. by rewrite lookup_total_insert_ne. Qed.

Lemma write_insert s out O i v :
  write (<[out := O]> s) out i v
  = <[out := mkTensor (sizes O) (scalar_type O) (<[i := v]> (data O))]> s.
Proof.
  unfold write. by rewrite lookup_total_insert_eq, insert_insert_eq.
Qed.

(** A loop of writes through [out] whose written values do not depend
    on the output object acts on the output buffer alone. *)
Lemma foldl_write_other {I : Type} (idx : I -> nat)
    (g : gmap nat (Tensor val) -> I -> val) (g0 : I -> val) s out :
  (forall T x, g (<[out := T]> s) x = g0 x) ->
  forall items O,
    foldl (fun s x => write s out (idx x) (g s x)) (<[out := O]> s) items
    = <[out := mkTensor (sizes O) (scalar_type O)
                 (foldl (fun l x => <[idx x := g0 x]> l) (data O) items)]> s.
Proof.
  intros Hg. induction items as [|x items IH]; intros O; simpl.
  - by destruct O.
  - by rewrite write_insert, Hg, IH.
Qed.

Lemma foldl_write_rows_other {I J : Type} (idx : I -> J -> nat)
    (g : gmap nat (Tensor val) -> I -> J -> val) (g0 : I -> J -> val)
    (cs : list J) s out :
  (forall T r c, g (<[out := T]> s) r c = g0 r c) ->
  forall rows O,
    foldl (fun s r =>
             foldl (fun s c => write s out (idx r c) (g s r c)) s cs)
          (<[out := O]> s) rows
    = <[out := mkTensor (sizes O) (scalar_type O)
                 (foldl (fun l r =>
                           foldl (fun l c => <[idx r c := g0 r c]> l) l cs)
                        (data O) rows)]> s.
Proof.
  intros Hg. induction rows as [|r rows IH]; intros O; simpl.
  - by destruct O.
  - rewrite (foldl_write_other (idx r) (fun s c => g s r c) (g0 r))
      by (intros; apply Hg).
    by rewrite IH.
Qed.

Lemma resize_tensor_unfold s out new_sizes :
  resize_tensor s out new_sizes
  = if resize_ok (s !!! out) new_sizes
    then Some (<[out := resized (s !!! out) new_sizes]> s)
    else None.
Proof. done. Qed.

Lemma resized_length O new_sizes :
  length (data (resized O new_sizes)) = Z.to_nat (shape_numel new_sizes).
Proof. simpl. by rewrite length_resize. Qed.

(** [vec_map] into a freshly resized output. *)
Lemma vec_map_resized f s out inp O new_sizes :
  inp <> out ->
  vec_map f out inp (shape_numel new_sizes)
    (<[out := resized O new_sizes]> s)
  = <[out := filled O new_sizes
               (fun i => f (element (data (s !!! inp)) i))]> s.
Proof.
  intros Hne. unfold vec_map.
  rewrite (foldl_write_other id (fun s i => f (read s inp i))
             (fun i => f (element (data (s !!! inp)) i)))
    by (intros; by rewrite read_insert_ne).
  unfold filled. do 2 f_equal.
  rewrite <- (resized_length O new_sizes). apply foldl_insert_all.
Qed.

(** [vec_map2] into a freshly resized output. *)
Lemma vec_map2_resized f s out x y O new_sizes :
  x <> out -> y <> out ->
  vec_map2 f out x y (shape_numel new_sizes)
    (<[out := resized O new_sizes]> s)
  = <[out := filled O new_sizes
               (fun i => f (element (data (s !!! x)) i)
                           (element (data (s !!! y)) i))]> s.
Proof.
  intros Hx Hy. unfold vec_map2.
  rewrite (foldl_write_other id
             (fun s i => f (read s x i) (read s y i))
             (fun i => f (element (data (s !!! x)) i)
                         (element (data (s !!! y)) i)))
    by (intros; by rewrite !read_insert_ne).
  unfold filled. do 2 f_equal.
  rewrite <- (resized_length O new_sizes). apply foldl_insert_all.
Qed.

Lemma foldl_ext_in {X Y : Type} (f g : X -> Y -> X) (l : list Y) :
  (forall x y, y ∈ l -> f x y = g x y) ->
  forall x, foldl f x l = foldl g x l.
Proof.
  induction l as [|y l IH]; intros Hfg x; simpl; [done |].
  rewrite Hfg by left. apply IH. intros. apply Hfg. by right.
Qed.

(** The general loop into a freshly resized output. *)
Lemma apply_binary_elementwise_fn_resized f s a b out O new_sizes :
  a <> out -> b <> out ->
  apply_binary_elementwise_fn f a b out (<[out := resized O new_sizes]> s)
  = <[out := filled O new_sizes
               (fun i =>
                  f (element (data (s !!! a))
                       (broadcast_index new_sizes (sizes (s !!! a)) i))
                    (element (data (s !!! b))
                       (broadcast_index new_sizes (sizes (s !!! b)) i)))]> s.
Proof.
  intros Ha Hb. unfold apply_binary_elementwise_fn.
  rewrite lookup_total_insert_eq, !lookup_total_insert_ne by done.
  unfold numel. simpl sizes.
  rewrite (foldl_write_other id
             (fun s' i =>
                f (read s' a (broadcast_index new_sizes (sizes (s !!! a)) i))
                  (read s' b (broadcast_index new_sizes (sizes (s !!! b)) i)))
             (fun i =>
                f (element (data (s !!! a))
                     (broadcast_index new_sizes (sizes (s !!! a)) i))
                  (element (data (s !!! b))
                     (broadcast_index new_sizes (sizes (s !!! b)) i))))
    by (intros; by rewrite !read_insert_ne).
  unfold filled. do 2 f_equal.
  rewrite <- (resized_length O new_sizes). apply foldl_insert_all.
Qed.

(** The row-broadcast loop into a freshly resized output. *)
Lemma broadcasting_map_2d_by_1d_resized out_type s lhs rhs out O new_sizes
    size size2 :
  lhs <> out -> rhs <> out ->
  broadcasting_map_2d_by_1d (mul out_type) out lhs rhs size size2
    (<[out := resized O new_sizes]> s)
  = <[out := mkTensor new_sizes (scalar_type O)
               (rows_written out_type (s !!! lhs) (s !!! rhs)
                  (Z.to_nat size) (Z.to_nat size2)
                  (data (resized O new_sizes)))]> s.
Proof.
  intros Hl Hr. unfold broadcasting_map_2d_by_1d.
  rewrite (foldl_write_rows_other
             (fun r c => (r * Z.to_nat size2 + c)%nat)
             (fun s' r c =>
                mul out_type (read s' lhs (r * Z.to_nat size2 + c))
                  (read s' rhs c))
             (fun r c =>
                mul out_type
                  (element (data (s !!! lhs)) (r * Z.to_nat size2 + c))
                  (element (data (s !!! rhs)) c)))
    by (intros; by rewrite !read_insert_ne).
  done.
Qed.

Lemma scalar_shortcut_separate s a b out :
  a <> out -> b <> out ->
  scalar_shortcut (scalar_type (s !!! a)) (scalar_type (s !!! b)) s a b out
  = into_store s out (scalar_shortcut_on (s !!! a) (s !!! b) (s !!! out)).
Proof.
  intros Ha Hb. unfold scalar_shortcut, scalar_shortcut_on, into_store.
  rewrite resize_tensor_unfold.
  destruct (resize_ok _ _); [|done].
  destruct (is_realb _ && is_realb _); [|done]. simpl. f_equal.
  rewrite lookup_total_insert_eq. unfold numel. simpl sizes.
  rewrite read_insert_ne by done.
  by rewrite vec_map_resized.
Qed.

Lemma treat_as_1d_separate s a b out :
  a <> out -> b <> out ->
  treat_as_1d (scalar_type (s !!! out)) s a b out
  = into_store s out (treat_as_1d_on (s !!! a) (s !!! b) (s !!! out)).
Proof.
  intros Ha Hb. unfold treat_as_1d, treat_as_1d_on, into_store.
  rewrite resize_tensor_unfold.
  destruct (resize_ok _ _); [|done].
  destruct (is_realb _); [|done]. simpl. f_equal.
  rewrite lookup_total_insert_eq. unfold numel. simpl sizes.
  by rewrite vec_map2_resized.
Qed.

Lemma broadcast_2d_by_1d_separate path s a b out :
  a <> out -> b <> out ->
  broadcast_2d_by_1d path (scalar_type (s !!! out)) s a b out
  = into_store s out
      (if decide (path = kBroadcast2dBy1dReverseArguments)
       then broadcast_2d_by_1d_on (s !!! b) (s !!! a) (s !!! out)
       else broadcast_2d_by_1d_on (s !!! a) (s !!! b) (s !!! out)).
Proof.
  intros Ha Hb. unfold broadcast_2d_by_1d, broadcast_2d_by_1d_on, into_store.
  destruct (decide _); rewrite resize_tensor_unfold;
    (destruct (resize_ok _ _); [|done]);
    (destruct (is_realb _); [|done]); simpl; f_equal;
    rewrite lookup_total_insert_ne by done;
    by rewrite broadcasting_map_2d_by_1d_resized.
Qed.

Lemma general_path_separate s a b out :
  a <> out -> b <> out ->
  general_path (scalar_type (s !!! a)) (scalar_type (s !!! b))
    (scalar_type (s !!! out)) s a b out
  = into_store s out (general_path_on (s !!! a) (s !!! b) (s !!! out)).
Proof.
  intros Ha Hb. unfold general_path, general_path_on, into_store.
  destruct (negb _); [done |].
  unfold resize_to_broadcast_target_size.
  destruct (get_broadcast_target_size _ _) as [target|]; [|done].
  rewrite resize_tensor_unfold.
  destruct (resize_ok _ _); [|done]. simpl. f_equal.
  by rewrite apply_binary_elementwise_fn_resized.
Qed.
End LoopFacts.

(** * The operator on separate objects *)

Section Separate.
Context `{RT : Runtime}.
Implicit Types (s : gmap nat (Tensor val)) (A B O T : Tensor val).

(** The body of [opt_mul_out] past the test for a self-call. *)
Definition single_call s (a b out : nat) : Result :=
  let a_type := scalar_type (s !!! a) in
  let b_type := scalar_type (s !!! b) in
  let out_type := scalar_type (s !!! out) in
  if (numel (s !!! b) =? 1)
     && (bool_decide (a_type = b_type) && bool_decide (a_type = out_type)
         && negb (bool_decide (a_type = Half)))
  then scalar_shortcut a_type b_type s a b out
  else
    let selected_optimized_path :=
      select_optimized_path (s !!! a) (s !!! b) (s !!! out) in
    if decide (selected_optimized_path = kTreatAs1d) then
      treat_as_1d out_type s a b out
    else if decide (selected_optimized_path <> kNone) then
      broadcast_2d_by_1d selected_optimized_path out_type s a b out
    else general_path a_type b_type out_type s a b out.

Lemma opt_mul_out_fuel_step fuel s a b out :
  opt_mul_out_fuel (S fuel) s a b out
  = if numel (s !!! b) =? 1 then Some (single_call s a b out)
    else if numel (s !!! a) =? 1 then opt_mul_out_fuel fuel s b a out
    else Some (single_call s a b out).
Proof.
  simpl. unfold single_call.
  destruct (numel (s !!! b) =? 1); simpl; [|done].
  by destruct (bool_decide _ && bool_decide _ && negb _).
Qed.

(** The self-call happens at most once: two units of fuel are enough,
    and more fuel changes nothing. *)
Lemma opt_mul_out_fuel_enough fuel s a b out :
  opt_mul_out_fuel (S (S fuel)) s a b out = Some (opt_mul_out s a b out).
Proof.
  unfold opt_mul_out. rewrite !(opt_mul_out_fuel_step (S _)).
  destruct (numel (s !!! b) =? 1); [done |].
  destruct (numel (s !!! a) =? 1) eqn:Ha; [|done].
  rewrite !opt_mul_out_fuel_step, Ha. done.
Qed.

Lemma opt_mul_out_unfold s a b out :
  opt_mul_out s a b out
  = if numel (s !!! b) =? 1 then single_call s a b out
    else if numel (s !!! a) =? 1 then single_call s b a out
    else single_call s a b out.
Proof.
  unfold opt_mul_out. rewrite opt_mul_out_fuel_step.
  destruct (numel (s !!! b) =? 1); [done |].
  destruct (numel (s !!! a) =? 1) eqn:Ha; [|done].
  by rewrite opt_mul_out_fuel_step, Ha.
Qed.

Lemma single_call_separate s a b out :
  a <> out -> b <> out ->
  single_call s a b out
  = into_store s out (single_call_on (s !!! a) (s !!! b) (s !!! out)).
Proof.
  intros Ha Hb. unfold single_call, single_call_on, type_gate, paths_on.
  destruct (_ && _).
  - by apply scalar_shortcut_separate.
  - destruct (select_optimized_path _ _ _) eqn:Hpath; simpl.
    + by apply general_path_separate.
    + by apply treat_as_1d_separate.
    + by rewrite broadcast_2d_by_1d_separate.
    + by rewrite broadcast_2d_by_1d_separate.
Qed.

(** On an output object distinct from both operands, the kernel does to
    the store exactly what [opt_mul_out_on] describes. *)
Lemma opt_mul_out_separate s a b out :
  a <> out -> b <> out ->
  opt_mul_out s a b out
  = into_store s out (opt_mul_out_on (s !!! a) (s !!! b) (s !!! out)).
Proof.
  intros Ha Hb. rewrite opt_mul_out_unfold.
  unfold opt_mul_out_on, effective_operands.
  repeat case_match; by apply single_call_separate.
Qed.

Lemma multiply_on A B O :
  multiply A B O
  = ((opt_mul_out_on A B O).1, default O (opt_mul_out_on A B O).2).
Proof.
  unfold multiply. rewrite opt_mul_out_separate by done.
  unfold call_store.
  rewrite lookup_total_insert_eq.
  rewrite !(lookup_total_insert_ne _ 2%nat) by done.
  rewrite lookup_total_insert_eq.
  rewrite (lookup_total_insert_ne _ 1%nat) by done.
  rewrite lookup_total_insert_eq.
  unfold into_store. simpl. f_equal.
  destruct (opt_mul_out_on A B O).2; by rewrite lookup_total_insert_eq.
Qed.
End Separate.

(** * Shapes, broadcasting and positions *)

Lemma shape_numel_app (xs ys : list Z) :
  shape_numel (xs ++ ys) = shape_numel xs * shape_numel ys.
Proof.
  unfold shape_numel. induction xs as [|x xs IH]; simpl; [lia |].
  rewrite IH. lia.
Qed.

Lemma shape_numel_reverse (xs : list Z) :
  shape_numel (reverse xs) = shape_numel xs.
Proof.
  induction xs as [|x xs IH]; [done |].
  rewrite reverse_cons, shape_numel_app, IH. unfold shape_numel. simpl. lia.
Qed.

Lemma shape_numel_nonneg (xs : list Z) : wf_shape xs -> 0 <= shape_numel xs.
Proof.
  unfold shape_numel. induction 1 as [|x xs Hx _ IH]; simpl; lia.
Qed.

Lemma shape_numel_replicate_1 (k : nat) : shape_numel (replicate k 1) = 1.
Proof. unfold shape_numel. induction k as [|k IH]; simpl; lia. Qed.

Lemma wf_shape_reverse (xs : list Z) : wf_shape xs -> wf_shape (reverse xs).
Proof. unfold wf_shape. by rewrite Forall_reverse. Qed.

Section BroadcastFacts.
Context `{RT : Runtime}.

Lemma broadcast_shape_rev_same (xs : list Z) :
  broadcast_shape_rev xs xs = Some xs.
Proof.
  induction xs as [|x xs IH]; simpl; [done |].
  by rewrite Z.eqb_refl, IH.
Qed.

Lemma broadcast_shape_rev_comm (xs : list Z) : forall ys,
  broadcast_shape_rev xs ys = broadcast_shape_rev ys xs.
Proof.
  induction xs as [|x xs IH]; intros [|y ys]; simpl; try done.
  rewrite (IH ys).
  destruct (Z.eqb_spec x y) as [-> | Hxy].
  - by rewrite Z.eqb_refl.
  - destruct (Z.eqb_spec y x) as [-> | _]; [done |].
    destruct (Z.eqb_spec y 1) as [-> | Hy], (Z.eqb_spec x 1) as [-> | Hx];
      simpl; done.
Qed.

Lemma get_broadcast_target_size_same (xs : list Z) :
  get_broadcast_target_size xs xs = Some xs.
Proof.
  unfold get_broadcast_target_size.
  rewrite broadcast_shape_rev_same. simpl. by rewrite reverse_involutive.
Qed.

Lemma get_broadcast_target_size_comm (xs ys : list Z) :
  get_broadcast_target_size xs ys = get_broadcast_target_size ys xs.
Proof.
  unfold get_broadcast_target_size. by rewrite broadcast_shape_rev_comm.
Qed.

(** Against its own shape an operand is read at the output position. *)
Lemma broadcast_index_rev_same (xs : list Z) :
  wf_shape xs ->
  forall i, 0 <= i < shape_numel xs -> broadcast_index_rev xs xs i = i.
Proof.
  induction 1 as [|x xs Hx Hxs IH]; intros i Hi; simpl.
  - unfold shape_numel in Hi. simpl in Hi. lia.
  - change (shape_numel (x :: xs)) with (x * shape_numel xs) in Hi.
    assert (0 < x) by (destruct (decide (x = 0)); [subst; lia | lia]).
    assert (0 <= i / x < shape_numel xs) as Hq.
    { split; [apply Z.div_pos; lia |].
      apply Z.div_lt_upper_bound; lia. }
    rewrite IH by done.
    destruct (Z.eqb_spec x 1) as [-> | _].
    + rewrite Z.div_1_r. lia.
    + pose proof (Z.div_mod i x). lia.
Qed.

Lemma broadcast_index_same (xs : list Z) (i : nat) :
  wf_shape xs ->
  (i < Z.to_nat (shape_numel xs))%nat ->
  broadcast_index xs xs i = i.
Proof.
  intros Hwf Hi. unfold broadcast_index.
  rewrite broadcast_index_rev_same.
  - lia.
  - by apply wf_shape_reverse.
  - rewrite shape_numel_reverse. lia.
Qed.

Lemma filled_ext (O : Tensor val) (new_sizes : list Z) (h1 h2 : nat -> val) :
  (forall i, (i < Z.to_nat (shape_numel new_sizes))%nat -> h1 i = h2 i) ->
  filled O new_sizes h1 = filled O new_sizes h2.
Proof.
  intros Hh. unfold filled. f_equal.
  apply list_fmap_ext. intros i x Hx.
  apply lookup_seq in Hx as [-> Hlt]. by apply Hh.
Qed.

Lemma static_cast_same (t : ScalarType) (v : val) : static_cast t t v = v.
Proof. unfold static_cast. by rewrite decide_True. Qed.

Lemma is_realb_not_half (t : ScalarType) : t <> Half -> is_realb t = true.
Proof. by destruct t. Qed.

Lemma type_gate_true (A B O : Tensor val) :
  type_gate A B O = true <-> homogeneous_not_half A B O.
Proof.
  unfold type_gate, homogeneous_not_half.
  repeat case_bool_decide; simpl; split; try done; intros (? & ? & ?); done.
Qed.

Lemma type_gate_false (A B O : Tensor val) :
  type_gate A B O = false <-> ~ homogeneous_not_half A B O.
Proof.
  rewrite <- type_gate_true. by destruct (type_gate A B O).
Qed.
End BroadcastFacts.

(** * Fast paths against the general path *)

Section FastPaths.
Context `{RT : Runtime}.
Implicit Types (A B O T : Tensor val).

Lemma call_store_lookups A B O :
  call_store A B O !!! 0%nat = A /\ call_store A B O !!! 1%nat = B /\
  call_store A B O !!! 2%nat = O.
Proof.
  unfold call_store.
  rewrite !(lookup_total_insert_ne _ 2%nat) by done.
  rewrite (lookup_total_insert_ne _ 1%nat 0%nat) by done.
  by rewrite !lookup_total_insert_eq.
Qed.

Lemma multiply_general_on A B O :
  multiply_general A B O
  = ((general_path_on A B O).1, default O (general_path_on A B O).2).
Proof.
  unfold multiply_general.
  destruct (call_store_lookups A B O) as (HA & HB & HO).
  pose proof (general_path_separate (call_store A B O) 0 1 2) as Hsep.
  rewrite HA, HB, HO in Hsep. rewrite Hsep by done.
  unfold into_store. simpl. f_equal.
  destruct (general_path_on A B O).2;
    [by rewrite lookup_total_insert_eq | done].
Qed.

Lemma fmap_element_seq (f : val -> val) (l : list val) :
  (fun i => f (element l i)) <$> seq 0 (length l) = f <$> l.
Proof.
  apply list_eq. intros i. rewrite !list_lookup_fmap.
  destruct (l !! i) as [x|] eqn:Hx; simpl.
  - rewrite lookup_seq_lt by (by eapply lookup_lt_Some). simpl.
    unfold element. by rewrite Hx.
  - rewrite lookup_seq_ge; [done |]. by apply lookup_ge_None.
Qed.

Section Laws.
(** Promotion of a kind with itself gives that kind, [Half] apart
    (which widens), and every kind can be cast to itself. *)
Hypothesis promote_same :
  forall t, t <> Half -> promoteTypes t t true = t.
Hypothesis can_cast_same : forall t, canCast t t = true.

Lemma scalar_shortcut_on_general A B O :
  homogeneous_not_half A B O ->
  sizes A = sizes B -> wf_shape (sizes A) -> numel A = 1 ->
  scalar_shortcut_on A B O = general_path_on A B O.
Proof.
  intros (Hab & Hao & Hhalf) Hsz Hwf Hn.
  unfold scalar_shortcut_on, general_path_on.
  rewrite <- Hsz, <- Hab, <- Hao.
  rewrite promote_same, can_cast_same, get_broadcast_target_size_same
    by done.
  rewrite is_realb_not_half by done. simpl.
  destruct (resize_ok O (sizes A)); [|done].
  do 2 f_equal. apply filled_ext. intros i Hi.
  unfold numel in Hn. rewrite Hn in Hi.
  assert (i = 0%nat) as -> by lia.
  rewrite !static_cast_same, broadcast_index_same; [done | done |].
  rewrite Hn. lia.
Qed.

Lemma treat_as_1d_on_general A B O :
  homogeneous_not_half A B O ->
  sizes A = sizes B -> wf_shape (sizes A) ->
  treat_as_1d_on A B O = general_path_on A B O.
Proof.
  intros (Hab & Hao & Hhalf) Hsz Hwf.
  unfold treat_as_1d_on, general_path_on.
  rewrite <- Hsz, <- Hab, <- Hao.
  rewrite promote_same, can_cast_same, get_broadcast_target_size_same
    by done.
  rewrite is_realb_not_half by done. simpl.
  destruct (resize_ok O (sizes A)); [|done].
  do 2 f_equal. apply filled_ext. intros i Hi.
  by rewrite !static_cast_same, broadcast_index_same.
Qed.

Lemma opt_mul_out_on_general A B O :
  sizes A = sizes B -> scalar_type A = scalar_type B ->
  wf_shape (sizes A) ->
  opt_mul_out_on A B O = general_path_on A B O.
Proof.
  intros Hsz Hty Hwf.
  assert (numel A = numel B) as Hn by (unfold numel; by rewrite Hsz).
  assert (opt_mul_out_on A B O = single_call_on A B O) as ->.
  { unfold opt_mul_out_on, effective_operands. rewrite Hn.
    by destruct (numel B =? 1). }
  unfold single_call_on, paths_on.
  destruct (type_gate A B O) eqn:Hgate.
  - apply type_gate_true in Hgate.
    destruct (Z.eqb_spec (numel B) 1) as [Hone | Hmany]; simpl.
    + apply scalar_shortcut_on_general; [done | done | done | lia].
    + rewrite select_optimized_path_homogeneous by done.
      rewrite (proj2 (arrayref_equals_eq (sizes A) (sizes B)) Hsz). simpl.
      by apply treat_as_1d_on_general.
  - apply type_gate_false in Hgate.
    rewrite andb_false_r, select_optimized_path_mismatch by done.
    done.
Qed.
End Laws.
End FastPaths.

(** C1. For two operands of identical shape and identical element type,
    the operator leaves the same status and the same output object as the
    general casting and broadcasting path run on the same call, whichever
    of the scalar shortcut and the flattened path fires (the row-broadcast
    path cannot fire on equal shapes). The runtime laws assumed are that a
    kind other than [Half] promotes with itself to itself and that every
    kind can be cast to itself. *)
Theorem fast_paths_agree_with_general_path `{RT : Runtime}
    (A B O : Tensor val) :
  (forall t, t <> Half -> promoteTypes t t true = t) ->
  (forall t, canCast t t = true) ->
  sizes A = sizes B ->
  scalar_type A = scalar_type B ->
  wf_shape (sizes A) ->
  multiply A B O = multiply_general A B O.
Proof.
  intros Hprom Hcast Hsz Hty Hwf.
  rewrite multiply_on, multiply_general_on.
  by rewrite opt_mul_out_on_general.
Qed.

(** * The scalar shortcut *)

Section ScalarShortcut.
Context `{RT : Runtime}.
Implicit Types (A B O T : Tensor val).

Lemma homogeneous_not_half_swap A B O :
  homogeneous_not_half A B O -> homogeneous_not_half B A O.
Proof. unfold homogeneous_not_half. intros (-> & -> & ?). done. Qed.

Lemma scalar_shortcut_on_broadcast A B O :
  homogeneous_not_half A B O ->
  wf_tensor A ->
  ((scalar_shortcut_on A B O).1, default O (scalar_shortcut_on A B O).2)
  = scalar_broadcast A (element (data B) 0) O.
Proof.
  intros (Hab & Hao & Hhalf) [_ Hlen].
  unfold scalar_shortcut_on, scalar_broadcast.
  destruct (resize_ok O (sizes A)); [|done].
  rewrite <- Hab, is_realb_not_half by done. simpl.
  unfold filled. rewrite static_cast_same. do 2 f_equal.
  unfold numel in Hlen. rewrite <- Hlen.
  apply (fmap_element_seq (fun x => mul (scalar_type A) x _)).
Qed.

Lemma multiply_single_right A B O :
  numel B = 1 -> homogeneous_not_half A B O -> wf_tensor A ->
  multiply A B O = scalar_broadcast A (element (data B) 0) O.
Proof.
  intros Hn Hty Hwf. rewrite multiply_on.
  unfold opt_mul_out_on, effective_operands, single_call_on.
  rewrite (proj2 (Z.eqb_eq _ _) Hn). simpl.
  rewrite (proj2 (Z.eqb_eq _ _) Hn), (proj2 (type_gate_true A B O) Hty).
  simpl. by apply scalar_shortcut_on_broadcast.
Qed.

Lemma multiply_single_left A B O :
  numel A = 1 -> numel B <> 1 -> multiply A B O = multiply B A O.
Proof.
  intros Ha Hb. rewrite !multiply_on.
  unfold opt_mul_out_on, effective_operands.
  rewrite (proj2 (Z.eqb_eq _ _) Ha), (proj2 (Z.eqb_neq _ _) Hb). done.
Qed.

Lemma self_call_once A B O :
  numel A = 1 -> numel B <> 1 ->
  let s := call_store A B O in
  opt_mul_out_fuel 1 s 0 1 2 = None /\
  opt_mul_out_fuel 2 s 0 1 2 = opt_mul_out_fuel 1 s 1 0 2 /\
  is_Some (opt_mul_out_fuel 1 s 1 0 2).
Proof.
  intros Ha Hb s.
  destruct (call_store_lookups A B O) as (HA & HB & HO). fold s in HA, HB, HO.
  rewrite !opt_mul_out_fuel_step, HA, HB.
  rewrite (proj2 (Z.eqb_eq _ _) Ha), (proj2 (Z.eqb_neq _ _) Hb).
  repeat split; eauto.
Qed.
End ScalarShortcut.

(** C4. Among operands whose element types all equal the output type and
    are not [Half]: when the right operand has a single element, the call
    is the scalar-broadcast loop (output resized to the left operand's
    shape, every element multiplied by the single value), a result in
    which promotion and cast reachability play no part; when only the left
    operand has a single element, the kernel calls itself once with the
    operands swapped, that call returns without a further self-call, and
    the outcome is that of the swapped call: the scalar-broadcast loop over
    the right operand. *)
Theorem scalar_shortcut_fires `{RT : Runtime} (A B O : Tensor val) :
  homogeneous_not_half A B O ->
  (numel B = 1 -> wf_tensor A ->
   multiply A B O = scalar_broadcast A (element (data B) 0) O) /\
  (numel A = 1 -> numel B <> 1 ->
   (opt_mul_out_fuel 1 (call_store A B O) 0 1 2 = None /\
    opt_mul_out_fuel 2 (call_store A B O) 0 1 2
    = opt_mul_out_fuel 1 (call_store A B O) 1 0 2 /\
    is_Some (opt_mul_out_fuel 1 (call_store A B O) 1 0 2)) /\
   multiply A B O = multiply B A O /\
   (wf_tensor B ->
    multiply A B O = scalar_broadcast B (element (data A) 0) O)).
Proof.
  intros Hty. split.
  - intros Hn Hwf. by apply multiply_single_right.
  - intros Ha Hb. split; [by apply self_call_once |].
    split; [by apply multiply_single_left |].
    intros Hwf. rewrite multiply_single_left by done.
    apply multiply_single_right; [done | | done].
    by apply homogeneous_not_half_swap.
Qed.

(** * The general path *)

Section GeneralPath.
Context `{RT : Runtime}.
Implicit Types (A B O X Y : Tensor val).

Lemma effective_operands_cases A B :
  effective_operands A B = (A, B) \/ effective_operands A B = (B, A).
Proof. unfold effective_operands. repeat case_match; auto. Qed.

(** When the shortcut does not fire and the selector finds no fast path,
    the call is the general path on the effective operands. *)
Lemma multiply_general_route A B O X Y :
  effective_operands A B = (X, Y) ->
  (numel Y =? 1) && type_gate X Y O = false ->
  select_optimized_path X Y O = kNone ->
  multiply A B O
  = ((general_path_on X Y O).1, default O (general_path_on X Y O).2).
Proof.
  intros Heff Hgate Hsel. rewrite multiply_on.
  unfold opt_mul_out_on. rewrite Heff. simpl.
  unfold single_call_on, paths_on. by rewrite Hgate, Hsel.
Qed.

Lemma general_path_on_unreachable X Y O :
  canCast (promoteTypes (scalar_type X) (scalar_type Y) true) (scalar_type O)
  = false ->
  general_path_on X Y O = (Failed InvalidArgument, None).
Proof. intros Hcast. unfold general_path_on. by rewrite Hcast. Qed.

Lemma general_path_on_ok X Y O :
  (general_path_on X Y O).1 = Ok ->
  canCast (promoteTypes (scalar_type X) (scalar_type Y) true) (scalar_type O)
  = true.
Proof.
  unfold general_path_on. by destruct (canCast _ _).
Qed.

Lemma mixed_types_route A B O X Y :
  ~ homogeneous_not_half A B O ->
  effective_operands A B = (X, Y) ->
  (numel Y =? 1) && type_gate X Y O = false /\
  select_optimized_path X Y O = kNone.
Proof.
  intros Hty Heff.
  assert (~ homogeneous_not_half X Y O) as Hxy.
  { destruct (effective_operands_cases A B) as [H | H];
      rewrite H in Heff; injection Heff as <- <-; [done |].
    intros H'. apply Hty. by apply homogeneous_not_half_swap. }
  split.
  - apply type_gate_false in Hxy. rewrite Hxy. apply andb_false_r.
  - by apply select_optimized_path_mismatch.
Qed.
End GeneralPath.

(** C5. On the general path (the shortcut does not fire and the selector
    finds no fast path, for the operands in the order the call or its
    self-call treats them) the common type is the promotion of the two
    operand types with [Half] widened, and the call fails with
    [InvalidArgument], leaving the output alone, when the output type
    cannot be cast from it; it succeeds only when that cast is reachable.
    In particular a [Float] by [Float] product into an [Int] output fails
    with [InvalidArgument] on a runtime whose cast rule refuses floating
    point to integer. *)
Theorem general_path_checks_cast `{RT : Runtime} (A B O X Y : Tensor val) :
  (effective_operands A B = (X, Y) ->
   (numel Y =? 1) && type_gate X Y O = false ->
   select_optimized_path X Y O = kNone ->
   let common_type :=
     promoteTypes (scalar_type X) (scalar_type Y) true in
   (canCast common_type (scalar_type O) = false ->
    multiply A B O = (Failed InvalidArgument, O)) /\
   ((multiply A B O).1 = Ok -> canCast common_type (scalar_type O) = true))
  /\
  (scalar_type A = Float -> scalar_type B = Float -> scalar_type O = Int ->
   canCast (promoteTypes Float Float true) Int = false ->
   multiply A B O = (Failed InvalidArgument, O)).
Proof.
  split.
  - intros Heff Hgate Hsel common_type.
    rewrite (multiply_general_route A B O X Y) by done. split.
    + intros Hcast. by rewrite general_path_on_unreachable.
    + simpl. apply general_path_on_ok.
  - intros HA HB HO Hcast.
    assert (~ homogeneous_not_half A B O) as Hty.
    { unfold homogeneous_not_half. rewrite HA, HO. intros (_ & ? & _). done. }
    destruct (effective_operands A B) as [X' Y'] eqn:Heff.
    destruct (mixed_types_route A B O X' Y' Hty Heff) as [Hgate Hsel].
    rewrite (multiply_general_route A B O X' Y') by done.
    rewrite general_path_on_unreachable; [done |].
    destruct (effective_operands_cases A B) as [H | H];
      rewrite H in Heff; injection Heff as <- <-;
      by rewrite ?HA, ?HB, ?HO.
Qed.

(** * Mixed operand types *)

Section Promotion.
Context `{RT : Runtime}.
Implicit Types (A B O X Y : Tensor val).

Lemma static_cast_other (from to : ScalarType) (v : val) :
  from <> to -> static_cast from to v = convert from to v.
Proof. intros Hne. unfold static_cast. by rewrite decide_False. Qed.

Lemma general_path_on_int_float A B O target :
  scalar_type A = Int -> scalar_type B = Float -> scalar_type O = Float ->
  get_broadcast_target_size (sizes A) (sizes B) = Some target ->
  resize_ok O target = true ->
  promoteTypes Int Float true = Float ->
  canCast Float Float = true ->
  general_path_on A B O
  = (Ok, Some (filled O target
                 (fun i =>
                    mul Float
                      (convert Int Float
                         (element (data A)
                            (broadcast_index target (sizes A) i)))
                      (element (data B)
                         (broadcast_index target (sizes B) i))))).
Proof.
  intros HA HB HO Htarget Hresize Hprom Hcast.
  unfold general_path_on.
  rewrite HA, HB, HO, Hprom, Hcast, Htarget, Hresize. simpl.
  reflexivity.
Qed.

Lemma general_path_on_float_int A B O target :
  scalar_type A = Int -> scalar_type B = Float -> scalar_type O = Float ->
  get_broadcast_target_size (sizes A) (sizes B) = Some target ->
  resize_ok O target = true ->
  promoteTypes Float Int true = Float ->
  canCast Float Float = true ->
  (forall x y, mul Float x y = mul Float y x) ->
  general_path_on B A O
  = (Ok, Some (filled O target
                 (fun i =>
                    mul Float
                      (convert Int Float
                         (element (data A)
                            (broadcast_index target (sizes A) i)))
                      (element (data B)
                         (broadcast_index target (sizes B) i))))).
Proof.
  intros HA HB HO Htarget Hresize Hprom Hcast Hcomm.
  unfold general_path_on.
  rewrite get_broadcast_target_size_comm.
  rewrite HA, HB, HO, Hprom, Hcast, Htarget, Hresize. simpl.
  do 2 f_equal. apply filled_ext. intros i _.
  rewrite !static_cast_same, static_cast_other by done. apply Hcomm.
Qed.
End Promotion.

(** C6. An [Int] tensor times a [Float] tensor into a [Float] output, on
    broadcast-compatible shapes and an output that accepts the broadcast
    shape: every output position holds the product, taken in [Float], of
    the [Int] element converted to [Float] and the [Float] element, each
    read at its broadcast position. The runtime laws assumed are that
    [Int] and [Float] promote to [Float] in either order, that [Float]
    can be cast to [Float], and that the [Float] product commutes. *)
Theorem int_times_float_promotes `{RT : Runtime}
    (A B O : Tensor val) (target : list Z) :
  promoteTypes Int Float true = Float ->
  promoteTypes Float Int true = Float ->
  canCast Float Float = true ->
  (forall x y, mul Float x y = mul Float y x) ->
  scalar_type A = Int -> scalar_type B = Float -> scalar_type O = Float ->
  get_broadcast_target_size (sizes A) (sizes B) = Some target ->
  resize_ok O target = true ->
  multiply A B O
  = (Ok, filled O target
           (fun i =>
              mul Float
                (convert Int Float
                   (element (data A) (broadcast_index target (sizes A) i)))
                (element (data B) (broadcast_index target (sizes B) i)))).
Proof.
  intros Hif Hfi Hcast Hcomm HA HB HO Htarget Hresize.
  assert (~ homogeneous_not_half A B O) as Hty.
  { unfold homogeneous_not_half. rewrite HA, HB. intros (? & _). done. }
  destruct (effective_operands A B) as [X Y] eqn:Heff.
  destruct (mixed_types_route A B O X Y Hty Heff) as [Hgate Hsel].
  rewrite (multiply_general_route A B O X Y) by done.
  destruct (effective_operands_cases A B) as [H | H];
    rewrite H in Heff; injection Heff as <- <-.
  - by rewrite (general_path_on_int_float A B O target).
  - by rewrite (general_path_on_float_int A B O target).
Qed.

(** * The row-broadcast paths *)

Lemma strips_to_numel (shape suffix : list Z) :
  strips_to shape suffix -> shape_numel shape = shape_numel suffix.
Proof.
  intros (k & -> & _).
  rewrite shape_numel_app, shape_numel_replicate_1. lia.
Qed.

Lemma strips_to_last_two (shape : list Z) (r c : Z) :
  strips_to shape [r; c] ->
  nth (length shape - 2) shape 0 = r /\ nth (length shape - 1) shape 0 = c.
Proof.
  intros (k & -> & _). rewrite length_app, length_replicate. simpl.
  replace (k + 2 - 2)%nat with k by lia.
  replace (k + 2 - 1)%nat with (S k) by lia.
  split; apply nth_lookup_Some.
  - by rewrite lookup_app_r, length_replicate, Nat.sub_diag
      by (rewrite length_replicate; lia).
  - rewrite lookup_app_r, length_replicate by (rewrite length_replicate; lia).
    by replace (S k - k)%nat with 1%nat by lia.
Qed.

Lemma strips_to_head_not_1 (shape rest : list Z) (x : Z) :
  strips_to shape (x :: rest) -> x <> 1.
Proof. intros (k & _ & Hhd) ->. by apply Hhd. Qed.

Section RowBroadcast.
Context `{RT : Runtime}.
Implicit Types (A B O L V T : Tensor val).

(** What the selector's answer says about the operands. *)
Lemma select_broadcast_shapes A B O :
  select_optimized_path A B O = kBroadcast2dBy1d ->
  homogeneous_not_half A B O /\
  exists r c, strips_to (sizes A) [r; c] /\ strips_to (sizes B) [c].
Proof.
  intros Hsel.
  destruct (decide (homogeneous_not_half A B O)) as [Hty | Hty];
    [|by rewrite select_optimized_path_mismatch in Hsel].
  split; [done |].
  rewrite select_optimized_path_homogeneous in Hsel by done.
  destruct (arrayref_equals _ _ || _); [done |].
  pose proof (arrayref_begin_strips (sizes A)) as HA.
  pose proof (arrayref_begin_strips (sizes B)) as HB.
  destruct (select_broadcast_2d_by_1d_spec A B _ _ HA HB) as [[Hfwd _] _].
  destruct (Hfwd Hsel) as (Hla & Hlb & Heq).
  destruct (arrayref_begin_ignoring_leading_1s (sizes A))
    as [|r [|c [|? ?]]]; try done.
  destruct (arrayref_begin_ignoring_leading_1s (sizes B))
    as [|c' [|? ?]]; try done.
  simpl in Heq. injection Heq as ->. by exists r, c'.
Qed.

Lemma select_broadcast_shapes_reverse A B O :
  select_optimized_path A B O = kBroadcast2dBy1dReverseArguments ->
  homogeneous_not_half A B O /\
  exists r c, strips_to (sizes B) [r; c] /\ strips_to (sizes A) [c].
Proof.
  intros Hsel.
  destruct (decide (homogeneous_not_half A B O)) as [Hty | Hty];
    [|by rewrite select_optimized_path_mismatch in Hsel].
  split; [done |].
  rewrite select_optimized_path_homogeneous in Hsel by done.
  destruct (arrayref_equals _ _ || _); [done |].
  pose proof (arrayref_begin_strips (sizes A)) as HA.
  pose proof (arrayref_begin_strips (sizes B)) as HB.
  destruct (select_broadcast_2d_by_1d_spec A B _ _ HA HB) as (_ & [Hfwd _] & _).
  destruct (Hfwd Hsel) as (Hla & Hlb & Heq).
  destruct (arrayref_begin_ignoring_leading_1s (sizes B))
    as [|r [|c [|? ?]]]; try done.
  destruct (arrayref_begin_ignoring_leading_1s (sizes A))
    as [|c' [|? ?]]; try done.
  simpl in Heq. injection Heq as ->. by exists r, c'.
Qed.

(** The rows written into a buffer of exactly [rows * cols] elements. *)
Lemma rows_written_all out_type L V (rows cols : nat) (buf : list val) :
  length buf = (rows * cols)%nat ->
  rows_written out_type L V rows cols buf
  = (fun i => mul out_type (element (data L) i)
                (element (data V) (i mod cols)))
    <$> seq 0 (rows * cols).
Proof.
  intros Hlen. unfold rows_written.
  pose (h := fun i => mul out_type (element (data L) i)
                        (element (data V) (i mod cols))).
  change (foldl
            (fun l r =>
               foldl (fun l c =>
                        <[(r * cols + c)%nat :=
                            mul out_type (element (data L) (r * cols + c))
                              (element (data V) c)]> l)
                     l (seq 0 cols))
            buf (seq 0 rows) = h <$> seq 0 (rows * cols)).
  rewrite (foldl_ext_in _
             (fun l r =>
                foldl (fun l c => <[(r * cols + c)%nat := h (r * cols + c)%nat]> l)
                      l (seq 0 cols))).
  - rewrite (foldl_insert_rows h cols rows buf) by lia.
    by rewrite drop_ge, app_nil_r by lia.
  - intros l r _. apply foldl_ext_in. intros l' c Hc.
    apply list_elem_of_lookup in Hc as [j Hj].
    apply lookup_seq in Hj as [-> Hlt]. simpl. unfold h.
    rewrite Nat.add_comm, Nat.Div0.mod_add, Nat.mod_small by lia. done.
Qed.

Lemma row_of_rows_written (f : val -> val -> val) (l v : list val)
    (rows cols r : nat) :
  length l = (rows * cols)%nat -> length v = cols -> (r < rows)%nat ->
  row cols r
    ((fun i => f (element l i) (element v (i mod cols)))
       <$> seq 0 (rows * cols))
  = zip_with f (row cols r l) v.
Proof.
  intros Hl Hv Hr. unfold row. apply list_eq. intros j.
  assert (r * cols + cols <= rows * cols)%nat by nia.
  rewrite lookup_zip_with.
  destruct (decide (j < cols)%nat) as [Hj | Hj].
  - rewrite !lookup_take_lt, !lookup_drop, list_lookup_fmap by done.
    rewrite lookup_seq_lt by lia. simpl.
    destruct (lookup_lt_is_Some_2 l (r * cols + j)) as [x Hx]; [lia |].
    destruct (lookup_lt_is_Some_2 v j) as [y Hy]; [lia |].
    rewrite Hx, Hy. simpl. unfold element. rewrite Hx.
    rewrite Nat.add_comm, Nat.Div0.mod_add, Nat.mod_small by lia.
    by rewrite Hy.
  - rewrite !lookup_take_ge by lia. done.
Qed.

(** The row-broadcast strategy with [L] as the matrix and [V] as the
    vector. *)
Lemma broadcast_2d_by_1d_on_rows L V O (rows cols : nat) :
  scalar_type O <> Half ->
  strips_to (sizes L) [Z.of_nat rows; Z.of_nat cols] ->
  wf_tensor L -> wf_tensor V -> numel V = Z.of_nat cols ->
  resize_ok O (sizes L) = true ->
  exists T,
    broadcast_2d_by_1d_on L V O = (Ok, Some T) /\
    sizes T = sizes L /\ scalar_type T = scalar_type O /\
    length (data T) = (rows * cols)%nat /\
    forall r, (r < rows)%nat ->
      row cols r (data T)
      = zip_with (mul (scalar_type O)) (row cols r (data L)) (data V).
Proof.
  intros Hhalf Hstrip [_ HlenL] [_ HlenV] HnV Hresize.
  unfold broadcast_2d_by_1d_on.
  rewrite Hresize, is_realb_not_half by done.
  destruct (strips_to_last_two _ _ _ Hstrip) as [-> ->].
  rewrite !Nat2Z.id.
  assert (Z.to_nat (shape_numel (sizes L)) = (rows * cols)%nat) as Hn.
  { rewrite (strips_to_numel _ _ Hstrip). unfold shape_numel. simpl. lia. }
  unfold numel in HlenL. rewrite Hn in HlenL.
  rewrite HnV, Nat2Z.id in HlenV.
  rewrite rows_written_all by (by rewrite resized_length).
  eexists. split; [done |]. simpl.
  split; [done |]. split; [done |].
  split; [by rewrite length_fmap, length_seq |].
  intros r Hr. by apply row_of_rows_written.
Qed.
End RowBroadcast.

Section RowBroadcastCall.
Context `{RT : Runtime}.
Implicit Types (A B O L V T : Tensor val).

Lemma strips_to_wf_shape (shape suffix : list Z) :
  strips_to shape suffix -> wf_shape shape -> wf_shape suffix.
Proof.
  intros (k & -> & _). unfold wf_shape. rewrite Forall_app. tauto.
Qed.

(** The call reaches the row-broadcast strategy whenever the selector
    names it: neither operand can then have a single element. *)
Lemma multiply_row_broadcast A B O L V :
  (select_optimized_path A B O = kBroadcast2dBy1d /\ L = A /\ V = B) \/
  (select_optimized_path A B O = kBroadcast2dBy1dReverseArguments /\
   L = B /\ V = A) ->
  wf_tensor L ->
  exists rows cols : nat,
    strips_to (sizes L) [Z.of_nat rows; Z.of_nat cols] /\
    numel V = Z.of_nat cols /\
    scalar_type O <> Half /\
    multiply A B O
    = ((broadcast_2d_by_1d_on L V O).1,
       default O (broadcast_2d_by_1d_on L V O).2).
Proof.
  intros Hsel [Hwf _].
  assert (homogeneous_not_half A B O /\
          exists r c, strips_to (sizes L) [r; c] /\ strips_to (sizes V) [c])
    as (Hty & r & c & HL & HV).
  { destruct Hsel as [(Hsel & -> & ->) | (Hsel & -> & ->)].
    - by apply select_broadcast_shapes.
    - by apply select_broadcast_shapes_reverse. }
  pose proof (strips_to_wf_shape _ _ HL Hwf) as Hrc.
  apply Forall_cons in Hrc as [Hr Hc]. apply Forall_cons in Hc as [Hc _].
  pose proof (strips_to_head_not_1 _ _ _ HL) as Hr1.
  pose proof (strips_to_head_not_1 _ _ _ HV) as Hc1.
  assert (numel L = r * c) as HnL.
  { unfold numel. rewrite (strips_to_numel _ _ HL).
    unfold shape_numel. simpl. lia. }
  assert (numel V = c) as HnV.
  { unfold numel. rewrite (strips_to_numel _ _ HV).
    unfold shape_numel. simpl. lia. }
  assert (numel L <> 1) as HL1 by nia.
  assert (numel V <> 1) as HV1 by lia.
  exists (Z.to_nat r), (Z.to_nat c). rewrite !Z2Nat.id by done.
  split; [done |]. split; [done |].
  split.
  { destruct Hty as (_ & <- & ?). done. }
  rewrite multiply_on. f_equal.
  all: unfold opt_mul_out_on, effective_operands, single_call_on, paths_on.
  all: destruct Hsel as [(Hsel & -> & ->) | (Hsel & -> & ->)].
  all: rewrite ?(proj2 (Z.eqb_neq _ _) HL1), ?(proj2 (Z.eqb_neq _ _) HV1).
  all: simpl.
  all: rewrite ?(proj2 (Z.eqb_neq _ _) HL1), ?(proj2 (Z.eqb_neq _ _) HV1).
  all: simpl; by rewrite Hsel.
Qed.
End RowBroadcastCall.

(** C7. On the row-broadcast paths, with [L] the operand that strips to
    the matrix (the left one, or the right one on the swapped variant) and
    [V] the vector operand, a call on well-formed operands whose output
    accepts the matrix operand's shape succeeds; the output has the matrix
    operand's shape, and each of its rows is the elementwise product of
    the same row of [L] with [V]. On the reference runtime the 2x2 matrix
    [[1,2],[3,4]] times the vector [10,20] takes the row-broadcast path
    and gives [[10,40],[30,80]], whatever the output of kind [Int] and rank
    2 held before. *)
Theorem row_broadcast_rows :
  (forall (RT : Runtime) (A B O L V : Tensor val),
     (select_optimized_path A B O = kBroadcast2dBy1d /\ L = A /\ V = B) \/
     (select_optimized_path A B O = kBroadcast2dBy1dReverseArguments /\
      L = B /\ V = A) ->
     wf_tensor L -> wf_tensor V ->
     resize_ok O (sizes L) = true ->
     exists (rows cols : nat) (T : Tensor val),
       strips_to (sizes L) [Z.of_nat rows; Z.of_nat cols] /\
       length (data V) = cols /\
       multiply A B O = (Ok, T) /\
       sizes T = sizes L /\ scalar_type T = scalar_type O /\
       length (data T) = (rows * cols)%nat /\
       forall r, (r < rows)%nat ->
         row cols r (data T)
         = zip_with (mul (scalar_type O)) (row cols r (data L)) (data V))
  /\
  (forall O : Tensor Z,
     scalar_type O = Int -> length (sizes O) = 2%nat ->
     let A := mkTensor [2; 2] Int [1; 2; 3; 4] in
     let B := mkTensor [2] Int [10; 20] in
     select_optimized_path A B O = kBroadcast2dBy1d /\
     multiply (RT := Reference.runtime) A B O
     = (Ok, mkTensor [2; 2] Int [10; 40; 30; 80])).
Proof.
  split.
  - intros RT A B O L V Hsel HwfL HwfV Hresize.
    destruct (multiply_row_broadcast A B O L V Hsel HwfL)
      as (rows & cols & Hstrip & HnV & Hhalf & Hmul).
    destruct (broadcast_2d_by_1d_on_rows L V O rows cols)
      as (T & HT & Hsz & Hty & Hlen & Hrows); try done.
    exists rows, cols, T. rewrite Hmul, HT. simpl.
    destruct HwfV as [_ HlenV]. rewrite HnV, Nat2Z.id in HlenV. done.
  - intros [sz ty dat] Hty Hrank A B. simpl in Hty, Hrank. subst ty.
    destruct sz as [|x [|y [|? ?]]]; try done.
    split.
    + unfold select_optimized_path. simpl. done.
    + destruct dat as [|? [|? [|? [|? [|? ?]]]]]; reflexivity.
Qed.

(** * Exchanging the operands *)

Lemma equal_ignoring_leading_1s_sym (lhs rhs : list Z) :
  equal_ignoring_leading_1s lhs rhs -> equal_ignoring_leading_1s rhs lhs.
Proof.
  intros (sl & sr & Hl & Hr & Hlen & Hnth).
  exists sr, sl. split; [done |]. split; [done |]. split; [done |].
  intros i. by rewrite Hnth.
Qed.

Lemma flatten_rule_sym {val} (a b out : Tensor val) :
  flatten_rule a b out -> flatten_rule b a out.
Proof.
  unfold flatten_rule. intros [H | (Hn & [Ho | He])].
  - by left.
  - right. split; [done |]. left. congruence.
  - right. split; [done |]. right. by apply equal_ignoring_leading_1s_sym.
Qed.

Lemma select_broadcast_2d_by_1d_swap {val} (a b : Tensor val) :
  select_broadcast_2d_by_1d_optimized_path b a
  = swap_path (select_broadcast_2d_by_1d_optimized_path a b).
Proof.
  unfold select_broadcast_2d_by_1d_optimized_path.
  destruct (arrayref_begin_ignoring_leading_1s (sizes a)) as [|x [|y [|? ?]]];
    destruct (arrayref_begin_ignoring_leading_1s (sizes b))
      as [|u [|v [|? ?]]];
    simpl; try done; by case_match.
Qed.

(** * Calls that do not succeed *)

Section FailureFacts.
Context `{RT : Runtime}.
Implicit Types (s : gmap nat (Tensor val)) (A B O T : Tensor val).

Lemma select_optimized_path_fast_type A B O :
  select_optimized_path A B O <> kNone ->
  homogeneous_not_half A B O.
Proof.
  intros Hsel.
  destruct (decide (homogeneous_not_half A B O)) as [Hty | Hty]; [done |].
  by rewrite select_optimized_path_mismatch in Hsel.
Qed.

Lemma select_optimized_path_fast_realb A B O :
  select_optimized_path A B O <> kNone ->
  is_realb (scalar_type O) = true.
Proof.
  intros (_ & <- & Hhalf)%select_optimized_path_fast_type.
  by apply is_realb_not_half.
Qed.

Lemma single_call_failure s a b out :
  status (single_call s a b out) <> Aborted /\
  (status (single_call s a b out) <> Ok ->
   single_call s a b out = mkResult (Failed InvalidArgument) s).
Proof.
  unfold single_call.
  destruct (_ && _) eqn:Hshort.
  - apply andb_true_iff in Hshort as [_ Hgate].
    apply andb_true_iff in Hgate as [Hgate Hhalf].
    apply andb_true_iff in Hgate as [Hab _].
    apply bool_decide_eq_true in Hab. apply negb_true_iff in Hhalf.
    apply bool_decide_eq_false in Hhalf.
    unfold scalar_shortcut. rewrite <- Hab, is_realb_not_half by done.
    destruct (resize_tensor _ _ _); simpl; split; done.
  - destruct (decide (_ = kTreatAs1d)) as [Hsel | Hsel].
    + unfold treat_as_1d.
      rewrite (select_optimized_path_fast_realb (s !!! a) (s !!! b))
        by (by rewrite Hsel).
      destruct (resize_tensor _ _ _); simpl; split; done.
    + destruct (decide (_ <> kNone)) as [Hfast | Hnone].
      * unfold broadcast_2d_by_1d.
        rewrite (select_optimized_path_fast_realb (s !!! a) (s !!! b))
          by done.
        destruct (decide _); destruct (resize_tensor _ _ _); simpl;
          split; done.
      * unfold general_path, is_realhb.
        destruct (negb (canCast _ _)); [simpl; split; done |].
        destruct (resize_to_broadcast_target_size _ _ _ _); simpl;
          split; done.
Qed.

(** On separate objects: a call that does not succeed reports
    [InvalidArgument] and hands the output back as it was. *)
Lemma multiply_failure A B O :
  (multiply A B O).1 <> Ok -> multiply A B O = (Failed InvalidArgument, O).
Proof.
  unfold multiply. simpl. intros Hst.
  assert (opt_mul_out (call_store A B O) 0 1 2
          = mkResult (Failed InvalidArgument) (call_store A B O)) as ->.
  { revert Hst. rewrite opt_mul_out_unfold.
    repeat case_match; apply single_call_failure. }
  simpl. unfold call_store. by rewrite lookup_total_insert_eq.
Qed.
End FailureFacts.

Section Commute.
Context `{RT : Runtime}.
Implicit Types (A B O T : Tensor val).

Lemma homogeneous_not_half_sym A B O :
  homogeneous_not_half A B O <-> homogeneous_not_half B A O.
Proof. split; apply homogeneous_not_half_swap. Qed.

Lemma type_gate_sym A B O : type_gate A B O = type_gate B A O.
Proof.
  destruct (type_gate B A O) eqn:Hg.
  - apply type_gate_true. apply type_gate_true in Hg.
    by apply homogeneous_not_half_sym.
  - apply type_gate_false. apply type_gate_false in Hg.
    by rewrite homogeneous_not_half_sym.
Qed.

Lemma select_optimized_path_swap A B O :
  select_optimized_path B A O = swap_path (select_optimized_path A B O).
Proof.
  destruct (decide (homogeneous_not_half A B O)) as [Hty | Hty].
  - rewrite !select_optimized_path_homogeneous
      by (done || by apply homogeneous_not_half_sym).
    destruct (arrayref_equals (sizes A) (sizes B) || _) eqn:Hab.
    + apply flatten_rule_spec, flatten_rule_sym, flatten_rule_spec in Hab.
      by rewrite Hab.
    + destruct (arrayref_equals (sizes B) (sizes A) || _) eqn:Hba.
      * apply flatten_rule_spec, flatten_rule_sym, flatten_rule_spec in Hba.
        congruence.
      * apply select_broadcast_2d_by_1d_swap.
  - rewrite !select_optimized_path_mismatch;
      [done | done | by rewrite <- homogeneous_not_half_sym].
Qed.

Lemma select_optimized_path_flatten_numel A B O :
  select_optimized_path A B O = kTreatAs1d -> numel A = numel B.
Proof.
  intros Hsel.
  destruct (decide (homogeneous_not_half A B O)) as [Hty | Hty];
    [|by rewrite select_optimized_path_mismatch in Hsel].
  rewrite select_optimized_path_homogeneous in Hsel by done.
  destruct (arrayref_equals _ _ || _) eqn:Hrule.
  - apply flatten_rule_spec in Hrule as [Heq | [Hn _]]; [|done].
    unfold numel. by rewrite Heq.
  - by apply select_broadcast_2d_by_1d_not_flatten in Hsel.
Qed.

(** Two outcomes agree when they succeed together as soon as the
    container treats the two operand shapes alike, and hold the same
    values, in the same number, whenever both succeed. *)
Definition agree A B O (r1 r2 : Status * option (Tensor val)) : Prop :=
  (resize_ok O (sizes A) = resize_ok O (sizes B) -> r1.1 = r2.1) /\
  (forall T1 T2, r1 = (Ok, Some T1) -> r2 = (Ok, Some T2) ->
     data T1 = data T2 /\ numel T1 = numel T2).

Lemma agree_refl A B O r : agree A B O r r.
Proof. split; [done |]. intros T1 T2 -> [= ->]. done. Qed.

Lemma agree_filled A B O (h1 h2 : nat -> val) :
  numel A = numel B ->
  (forall i, (i < Z.to_nat (numel A))%nat -> h1 i = h2 i) ->
  agree A B O
    (if resize_ok O (sizes A)
     then (Ok, Some (filled O (sizes A) h1))
     else (Failed InvalidArgument, None))
    (if resize_ok O (sizes B)
     then (Ok, Some (filled O (sizes B) h2))
     else (Failed InvalidArgument, None)).
Proof.
  intros Hn Hh. split.
  - intros ->. by destruct (resize_ok O (sizes B)).
  - intros T1 T2.
    destruct (resize_ok O (sizes A)); [|done].
    destruct (resize_ok O (sizes B)); [|done].
    intros [= <-] [= <-]. unfold numel in *. simpl. split; [|done].
    rewrite <- Hn. apply list_fmap_ext. intros i x Hx.
    apply lookup_seq in Hx as [-> Hlt]. by apply Hh.
Qed.

Section Laws.
(** The product of each kind commutes, and so does promotion. *)
Hypothesis mul_comm : forall t x y, mul t x y = mul t y x.
Hypothesis promote_comm :
  forall t u, promoteTypes t u true = promoteTypes u t true.

Lemma general_path_on_comm A B O :
  general_path_on A B O = general_path_on B A O.
Proof.
  unfold general_path_on.
  rewrite (promote_comm (scalar_type A)), (get_broadcast_target_size_comm
                                             (sizes A)).
  destruct (negb _); [done |].
  destruct (get_broadcast_target_size _ _) as [target|]; [|done].
  destruct (resize_ok O target); [|done].
  do 2 f_equal. apply filled_ext. intros i _. by rewrite mul_comm.
Qed.

Lemma scalar_shortcut_on_comm A B O :
  homogeneous_not_half A B O -> numel A = 1 -> numel B = 1 ->
  agree A B O (scalar_shortcut_on A B O) (scalar_shortcut_on B A O).
Proof.
  intros (Hab & Hao & Hhalf) HA HB. unfold scalar_shortcut_on.
  rewrite <- Hab, is_realb_not_half by done. simpl.
  apply agree_filled; [congruence |].
  intros i Hi. rewrite HA in Hi. assert (i = 0%nat) as -> by lia.
  rewrite !static_cast_same. apply mul_comm.
Qed.

Lemma treat_as_1d_on_comm A B O :
  numel A = numel B ->
  agree A B O (treat_as_1d_on A B O) (treat_as_1d_on B A O).
Proof.
  intros Hn. unfold treat_as_1d_on.
  destruct (is_realb (scalar_type O)).
  - apply agree_filled; [done |]. intros i _. apply mul_comm.
  - split.
    + intros ->. by destruct (resize_ok O (sizes B)).
    + intros T1 T2. destruct (resize_ok O (sizes A)); done.
Qed.

Lemma paths_on_comm A B O :
  agree A B O (paths_on A B O) (paths_on B A O).
Proof.
  unfold paths_on. rewrite (select_optimized_path_swap A B O).
  destruct (select_optimized_path A B O) eqn:Hsel; simpl.
  - rewrite general_path_on_comm. apply agree_refl.
  - apply treat_as_1d_on_comm.
    apply select_optimized_path_flatten_numel in Hsel. done.
  - apply agree_refl.
  - apply agree_refl.
Qed.

Lemma opt_mul_out_on_comm A B O :
  agree A B O (opt_mul_out_on A B O) (opt_mul_out_on B A O).
Proof.
  unfold opt_mul_out_on, effective_operands.
  destruct (Z.eqb_spec (numel A) 1) as [HA | HA],
    (Z.eqb_spec (numel B) 1) as [HB | HB]; simpl;
    try apply agree_refl.
  - unfold single_call_on.
    rewrite (proj2 (Z.eqb_eq _ _) HA), (proj2 (Z.eqb_eq _ _) HB).
    rewrite (type_gate_sym B A O).
    destruct (type_gate A B O) eqn:Hg; simpl.
    + apply type_gate_true in Hg. by apply scalar_shortcut_on_comm.
    + apply paths_on_comm.
  - unfold single_call_on.
    rewrite (proj2 (Z.eqb_neq _ _) HA), (proj2 (Z.eqb_neq _ _) HB). simpl.
    apply paths_on_comm.
Qed.
End Laws.

Lemma opt_mul_out_on_ok A B O :
  (opt_mul_out_on A B O).1 = Ok ->
  exists T, opt_mul_out_on A B O = (Ok, Some T).
Proof.
  unfold opt_mul_out_on, single_call_on, paths_on, scalar_shortcut_on,
    treat_as_1d_on, broadcast_2d_by_1d_on, general_path_on.
  repeat case_match; simpl; intros; try done; eauto.
Qed.
End Commute.

(** C8. On a runtime whose products and promotion commute, exchanging the
    operands changes neither the values nor their number: whenever the two
    calls finish with the same status, the two outputs hold the same values
    position by position (their shapes may be written differently but
    count the same elements). The two calls do finish with the same status
    as soon as the output container treats the two operand shapes alike;
    the flattened path and the scalar shortcut resize the output to the
    first operand's shape, so a container that takes only one of the two
    shapes lets one order succeed and the other fail. *)
Theorem multiply_commutes `{RT : Runtime} (A B O : Tensor val) :
  (forall t x y, mul t x y = mul t y x) ->
  (forall t u, promoteTypes t u true = promoteTypes u t true) ->
  (resize_ok O (sizes A) = resize_ok O (sizes B) ->
   (multiply A B O).1 = (multiply B A O).1) /\
  ((multiply A B O).1 = (multiply B A O).1 ->
   data (multiply A B O).2 = data (multiply B A O).2 /\
   numel (multiply A B O).2 = numel (multiply B A O).2).
Proof.
  intros Hmul Hprom.
  destruct (opt_mul_out_on_comm Hmul Hprom A B O) as [Hstatus Hdata].
  split; [by rewrite !multiply_on |].
  intros Hsame.
  destruct (decide ((multiply A B O).1 = Ok)) as [Hok | Hfail].
  - assert ((multiply B A O).1 = Ok) as Hok' by congruence.
    revert Hok Hok'. rewrite !multiply_on. simpl.
    intros [T1 H1]%opt_mul_out_on_ok [T2 H2]%opt_mul_out_on_ok.
    rewrite H1, H2. simpl. by apply Hdata.
  - rewrite (multiply_failure A B O) by done.
    rewrite (multiply_failure B A O) by congruence. done.
Qed.

(** * What a call leaves alone *)

Section Frame.
Context `{RT : Runtime}.
Implicit Types (s : gmap nat (Tensor val)).

Lemma write_frame s out i v t :
  t <> out -> write s out i v !! t = s !! t.
Proof. intros Hne. unfold write. by rewrite lookup_insert_ne. Qed.

Lemma foldl_write_frame {I : Type} (idx : I -> nat)
    (g : gmap nat (Tensor val) -> I -> val) out t (items : list I) :
  t <> out ->
  forall s,
    foldl (fun s x => write s out (idx x) (g s x)) s items !! t = s !! t.
Proof.
  intros Hne. induction items as [|x items IH]; intros s; simpl; [done |].
  by rewrite IH, write_frame.
Qed.

Lemma resize_tensor_frame s out new_sizes s1 t :
  t <> out -> resize_tensor s out new_sizes = Some s1 -> s1 !! t = s !! t.
Proof.
  intros Hne. unfold resize_tensor.
  destruct (resize_ok _ _); [|done].
  intros [= <-]. by rewrite lookup_insert_ne.
Qed.

Lemma vec_map_frame f out inp n s t :
  t <> out -> vec_map f out inp n s !! t = s !! t.
Proof.
  intros Hne. unfold vec_map.
  by rewrite (foldl_write_frame id (fun s i => f (read s inp i))).
Qed.

Lemma vec_map2_frame f out x y n s t :
  t <> out -> vec_map2 f out x y n s !! t = s !! t.
Proof.
  intros Hne. unfold vec_map2.
  by rewrite (foldl_write_frame id (fun s i => f (read s x i) (read s y i))).
Qed.

Lemma broadcasting_map_2d_by_1d_frame f out lhs rhs size size2 s t :
  t <> out ->
  broadcasting_map_2d_by_1d f out lhs rhs size size2 s !! t = s !! t.
Proof.
  intros Hne. unfold broadcasting_map_2d_by_1d.
  generalize (seq 0 (Z.to_nat size)). intros rows. revert s.
  induction rows as [|r rows IH]; intros s; simpl; [done |].
  rewrite IH.
  by rewrite (foldl_write_frame
                (fun c => (r * Z.to_nat size2 + c)%nat)
                (fun s c => f (read s lhs (r * Z.to_nat size2 + c))
                              (read s rhs c))).
Qed.

Lemma apply_binary_elementwise_fn_frame f a b out s t :
  t <> out -> apply_binary_elementwise_fn f a b out s !! t = s !! t.
Proof.
  intros Hne. unfold apply_binary_elementwise_fn.
  by rewrite (foldl_write_frame id
                (fun s' i =>
                   f (read s' a (broadcast_index (sizes (s !!! out))
                                   (sizes (s !!! a)) i))
                     (read s' b (broadcast_index (sizes (s !!! out))
                                   (sizes (s !!! b)) i)))).
Qed.

Lemma scalar_shortcut_frame a_type b_type s a b out t :
  t <> out -> store (scalar_shortcut a_type b_type s a b out) !! t = s !! t.
Proof.
  intros Hne. unfold scalar_shortcut.
  destruct (resize_tensor _ _ _) as [s1|] eqn:Hres; [|done].
  apply (resize_tensor_frame _ _ _ _ t) in Hres; [|done].
  destruct (_ && _); simpl; [|done]. by rewrite vec_map_frame.
Qed.

Lemma treat_as_1d_frame out_type s a b out t :
  t <> out -> store (treat_as_1d out_type s a b out) !! t = s !! t.
Proof.
  intros Hne. unfold treat_as_1d.
  destruct (resize_tensor _ _ _) as [s1|] eqn:Hres; [|done].
  apply (resize_tensor_frame _ _ _ _ t) in Hres; [|done].
  destruct (is_realb _); simpl; [|done]. by rewrite vec_map2_frame.
Qed.

Lemma broadcast_2d_by_1d_frame path out_type s a b out t :
  t <> out -> store (broadcast_2d_by_1d path out_type s a b out) !! t = s !! t.
Proof.
  intros Hne. unfold broadcast_2d_by_1d.
  destruct (decide _);
    (destruct (resize_tensor _ _ _) as [s1|] eqn:Hres; [|done]);
    (apply (resize_tensor_frame _ _ _ _ t) in Hres; [|done]);
    (destruct (is_realb _); simpl; [|done]);
    by rewrite broadcasting_map_2d_by_1d_frame.
Qed.

Lemma general_path_frame a_type b_type out_type s a b out t :
  t <> out ->
  store (general_path a_type b_type out_type s a b out) !! t = s !! t.
Proof.
  intros Hne. unfold general_path, resize_to_broadcast_target_size.
  destruct (negb _); [done |].
  destruct (get_broadcast_target_size _ _); [|done].
  destruct (resize_tensor _ _ _) as [s1|] eqn:Hres; [|done].
  apply (resize_tensor_frame _ _ _ _ t) in Hres; [|done].
  simpl. by rewrite apply_binary_elementwise_fn_frame.
Qed.

Lemma single_call_frame s a b out t :
  t <> out -> store (single_call s a b out) !! t = s !! t.
Proof.
  intros Hne. unfold single_call.
  destruct (_ && _); [by apply scalar_shortcut_frame |].
  destruct (decide _); [by apply treat_as_1d_frame |].
  destruct (decide _);
    [by apply broadcast_2d_by_1d_frame | by apply general_path_frame].
Qed.

Lemma opt_mul_out_frame s a b out t :
  t <> out -> store (opt_mul_out s a b out) !! t = s !! t.
Proof.
  intros Hne. rewrite opt_mul_out_unfold.
  repeat case_match; by apply single_call_frame.
Qed.

Lemma opt_mul_scalar_out_frame s a (c : Scalar val) out t :
  t <> out -> store (opt_mul_scalar_out s a c out) !! t = s !! t.
Proof.
  intros Hne. unfold opt_mul_scalar_out.
  destruct (negb _); [done |].
  destruct (resize_tensor _ _ _) as [s1|] eqn:Hres; [|done].
  apply (resize_tensor_frame _ _ _ _ t) in Hres; [|done].
  destruct (bool_decide _ && bool_decide _ && negb _).
  - destruct (_ && _); simpl; [|done]. by rewrite vec_map_frame.
  - destruct (_ && _ && _ && _); simpl; [|done].
    by rewrite (foldl_write_frame id
                  (fun s' i =>
                     static_cast _ _
                       (mul _ (static_cast _ _ (read s' a i)) _))).
Qed.

(** The scalar operator never reports an error code: each of its checks
    aborts. *)
Lemma opt_mul_scalar_out_status s a (c : Scalar val) out :
  status (opt_mul_scalar_out s a c out) = Ok \/
  status (opt_mul_scalar_out s a c out) = Aborted.
Proof.
  unfold opt_mul_scalar_out. repeat case_match; simpl; auto.
Qed.
End Frame.

(** C10. Whatever the status of the call, either operator leaves every
    tensor object other than the one passed as output exactly as it was,
    shape and buffer; in particular an operand that is not itself the
    output object is unchanged. The scalar argument is a value and is
    never written. *)
Theorem only_output_modified `{RT : Runtime} (s : gmap nat (Tensor val))
    (a b out t : nat) (c : Scalar val) :
  t <> out ->
  store (opt_mul_out s a b out) !! t = s !! t /\
  store (opt_mul_scalar_out s a c out) !! t = s !! t.
Proof.
  intros Hne. split.
  - by apply opt_mul_out_frame.
  - by apply opt_mul_scalar_out_frame.
Qed.

(** C9. In the scalar operator, an output type that differs from the
    promoted common type, and a refused resize of the output, both end the
    call by a fatal check: the program aborts with the store untouched, and
    no call of this operator ever reports [InvalidArgument]. *)
Theorem scalar_operator_checks_abort `{RT : Runtime}
    (s : gmap nat (Tensor val)) (a out : nat) (c : Scalar val) :
  (promote_type_with_scalar (scalar_type (s !!! a)) c false
   <> scalar_type (s !!! out) ->
   opt_mul_scalar_out s a c out = mkResult Aborted s) /\
  (promote_type_with_scalar (scalar_type (s !!! a)) c false
   = scalar_type (s !!! out) ->
   resize_ok (s !!! out) (sizes (s !!! a)) = false ->
   opt_mul_scalar_out s a c out = mkResult Aborted s) /\
  status (opt_mul_scalar_out s a c out) <> Failed InvalidArgument.
Proof.
  split; [|split].
  - intros Hne. unfold opt_mul_scalar_out.
    by rewrite bool_decide_eq_false_2.
  - intros Heq Hresize. unfold opt_mul_scalar_out.
    rewrite bool_decide_eq_true_2 by done. simpl.
    by rewrite resize_tensor_unfold, Hresize.
  - destruct (opt_mul_scalar_out_status s a c out) as [H | H];
      by rewrite H.
Qed.

(** * Concrete calls on the reference runtime *)

Module Examples.
Import Reference.

Definition matrix_2x2 : Tensor Z := mkTensor [2; 2] Int [1; 2; 3; 4].
Definition squares_2x2 : Tensor Z := mkTensor [2; 2] Int [5; 6; 7; 8].
Definition vector_2 : Tensor Z := mkTensor [2] Int [10; 20].
Definition single_3 : Tensor Z := mkTensor [1; 1] Int [3].
Definition out_2x2 : Tensor Z := mkTensor [2; 2] Int [0; 0; 0; 0].
Definition float_2x3 : Tensor Z := mkTensor [2; 3] Float [1; 2; 3; 4; 5; 6].
Definition float_2x1 : Tensor Z := mkTensor [2; 1] Float [10; 20].
Definition float_out : Tensor Z := mkTensor [1; 1] Float [0].
Definition int_2x3 : Tensor Z := mkTensor [2; 3] Int [1; 2; 3; 4; 5; 6].

Definition row_1x2 : Tensor Z := mkTensor [1; 2] Int [10; 20].
Definition out_1x2 : Tensor Z := mkTensor [1; 2] Int [0; 0].

(** Three separate objects: two operands and an output. *)
Definition three_objects : gmap nat (Tensor Z) :=
  call_store matrix_2x2 vector_2 out_2x2.

(** The first operand is also the output: an in-place call. *)
Definition in_place_objects : gmap nat (Tensor Z) :=
  <[1%nat := single_3]> (<[0%nat := matrix_2x2]> ∅).

Lemma mul_comm (t : ScalarType) (x y : Z) : mul t x y = mul t y x.
Proof. simpl. by rewrite Z.mul_comm. Qed.

Lemma promote_comm (t u : ScalarType) : promote t u true = promote u t true.
Proof. by destruct t, u. Qed.

Lemma promote_same (t : ScalarType) : t <> Half -> promote t t true = t.
Proof. by destruct t. Qed.

Lemma can_cast_same (t : ScalarType) : can_cast t t = true.
Proof. by destruct t. Qed.
End Examples.

Lemma fast_paths_agree_with_general_path_witness :
  multiply (RT := Reference.runtime) Examples.matrix_2x2 Examples.squares_2x2
    Examples.out_2x2
  = multiply_general (RT := Reference.runtime) Examples.matrix_2x2
      Examples.squares_2x2 Examples.out_2x2.
Proof.
  apply (fast_paths_agree_with_general_path (RT := Reference.runtime)).
  - apply Examples.promote_same.
  - apply Examples.can_cast_same.
  - reflexivity.
  - reflexivity.
  - unfold wf_shape. simpl. repeat constructor; lia.
Defined.

Lemma select_optimized_path_broadcast_iff_witness :
  select_optimized_path Examples.matrix_2x2 Examples.vector_2 Examples.out_2x2
  = kBroadcast2dBy1d.
Proof.
  apply (select_optimized_path_broadcast_iff Examples.matrix_2x2
           Examples.vector_2 Examples.out_2x2 [2; 2] [2]).
  - unfold homogeneous_not_half. simpl. repeat split; discriminate.
  - unfold flatten_rule. simpl. intros [H | [H _]]; discriminate.
  - exists 0%nat. simpl. split; [reflexivity | discriminate].
  - exists 0%nat. simpl. split; [reflexivity | discriminate].
  - repeat split; reflexivity.
Defined.

Lemma scalar_shortcut_fires_witness :
  multiply (RT := Reference.runtime) Examples.matrix_2x2 Examples.single_3
    Examples.out_2x2
  = (Ok, mkTensor [2; 2] Int [3; 6; 9; 12]) /\
  multiply (RT := Reference.runtime) Examples.single_3 Examples.matrix_2x2
    Examples.out_2x2
  = (Ok, mkTensor [2; 2] Int [3; 6; 9; 12]).
Proof.
  assert (wf_tensor Examples.matrix_2x2) as Hwf.
  { split; [unfold wf_shape; simpl; repeat constructor; lia | reflexivity]. }
  assert (homogeneous_not_half Examples.matrix_2x2 Examples.single_3
            Examples.out_2x2) as Hty1.
  { unfold homogeneous_not_half. simpl. repeat split; discriminate. }
  assert (homogeneous_not_half Examples.single_3 Examples.matrix_2x2
            Examples.out_2x2) as Hty2.
  { unfold homogeneous_not_half. simpl. repeat split; discriminate. }
  destruct (scalar_shortcut_fires (RT := Reference.runtime)
              Examples.matrix_2x2 Examples.single_3 Examples.out_2x2 Hty1)
    as [Hright _].
  destruct (scalar_shortcut_fires (RT := Reference.runtime)
              Examples.single_3 Examples.matrix_2x2 Examples.out_2x2 Hty2)
    as [_ Hleft].
  split.
  - rewrite Hright; [reflexivity | reflexivity | exact Hwf].
  - destruct Hleft as (_ & _ & Hloop); [reflexivity | discriminate |].
    rewrite Hloop; [reflexivity | exact Hwf].
Defined.

Lemma general_path_checks_cast_witness :
  multiply (RT := Reference.runtime) Examples.float_2x3 Examples.float_2x1
    Examples.out_2x2
  = (Failed InvalidArgument, Examples.out_2x2) /\
  multiply (RT := Reference.runtime) Examples.int_2x3 Examples.float_2x1
    Examples.out_2x2
  = (Failed InvalidArgument, Examples.out_2x2) /\
  canCast (Runtime := Reference.runtime)
    (promoteTypes (Runtime := Reference.runtime) Int Float true) Float = true.
Proof.
  split; [|split].
  - apply (proj2 (general_path_checks_cast (RT := Reference.runtime)
                    Examples.float_2x3 Examples.float_2x1 Examples.out_2x2
                    Examples.float_2x3 Examples.float_2x1));
      reflexivity.
  - apply (proj1 (general_path_checks_cast (RT := Reference.runtime)
                    Examples.int_2x3 Examples.float_2x1 Examples.out_2x2
                    Examples.int_2x3 Examples.float_2x1));
      reflexivity.
  - apply (proj1 (general_path_checks_cast (RT := Reference.runtime)
                    Examples.int_2x3 Examples.float_2x1 Examples.float_out
                    Examples.int_2x3 Examples.float_2x1));
      reflexivity.
Defined.

Lemma int_times_float_promotes_witness :
  multiply (RT := Reference.runtime) Examples.int_2x3 Examples.float_2x1
    Examples.float_out
  = (Ok, mkTensor [2; 3] Float [10; 20; 30; 80; 100; 120]).
Proof.
  rewrite (int_times_float_promotes (RT := Reference.runtime)
             Examples.int_2x3 Examples.float_2x1 Examples.float_out [2; 3]);
    try reflexivity.
  intros x y. simpl. lia.
Defined.

Lemma row_broadcast_rows_witness :
  multiply (RT := Reference.runtime) Examples.matrix_2x2 Examples.vector_2
    Examples.out_2x2
  = (Ok, mkTensor [2; 2] Int [10; 40; 30; 80]) /\
  exists (rows cols : nat) (T : Tensor Z),
    strips_to (sizes Examples.matrix_2x2) [Z.of_nat rows; Z.of_nat cols] /\
    length (data Examples.vector_2) = cols /\
    multiply (RT := Reference.runtime) Examples.vector_2 Examples.matrix_2x2
      Examples.out_2x2 = (Ok, T) /\
    sizes T = [2; 2] /\ scalar_type T = Int /\
    length (data T) = (rows * cols)%nat /\
    forall r, (r < rows)%nat ->
      row cols r (data T)
      = zip_with (mul (Runtime := Reference.runtime) Int)
          (row cols r (data Examples.matrix_2x2)) (data Examples.vector_2).
Proof.
  split.
  - apply (proj2 row_broadcast_rows Examples.out_2x2); reflexivity.
  - apply (proj1 row_broadcast_rows Reference.runtime Examples.vector_2
             Examples.matrix_2x2 Examples.out_2x2 Examples.matrix_2x2
             Examples.vector_2).
    + right. repeat split; reflexivity.
    + split; [unfold wf_shape; simpl; repeat constructor; lia | reflexivity].
    + split; [unfold wf_shape; simpl; repeat constructor; lia | reflexivity].
    + reflexivity.
Defined.

Lemma multiply_commutes_witness :
  (multiply (RT := Reference.runtime) Examples.matrix_2x2 Examples.row_1x2
     Examples.out_2x2).1
  = (multiply (RT := Reference.runtime) Examples.row_1x2 Examples.matrix_2x2
       Examples.out_2x2).1 /\
  data (multiply (RT := Reference.runtime) Examples.matrix_2x2
          Examples.row_1x2 Examples.out_2x2).2
  = data (multiply (RT := Reference.runtime) Examples.row_1x2
            Examples.matrix_2x2 Examples.out_2x2).2.
Proof.
  destruct (multiply_commutes (RT := Reference.runtime) Examples.matrix_2x2
              Examples.row_1x2 Examples.out_2x2 Examples.mul_comm
              Examples.promote_comm) as [Hstatus Hdata].
  split.
  - apply Hstatus. reflexivity.
  - apply Hdata; reflexivity.
Defined.

(** C8 as the specification words it fails. The shapes [[1; 2]] and [[2]]
    are broadcast-compatible in both orders, both operands hold the values
    10 and 20, and the output is a [[1; 2]] tensor whose container keeps
    its rank. With the [[1; 2]] operand first the flattened path resizes
    the output to [[1; 2]] and writes the products; with the [[2]] operand
    first it asks for the shape [[2]], the resize is refused, and the
    output keeps its old values: the two orders do not leave equal
    values. *)
Lemma multiply_commutes_counterexample :
  get_broadcast_target_size (sizes Examples.row_1x2) (sizes Examples.vector_2)
  = Some [1; 2] /\
  get_broadcast_target_size (sizes Examples.vector_2) (sizes Examples.row_1x2)
  = Some [1; 2] /\
  multiply (RT := Reference.runtime) Examples.row_1x2 Examples.vector_2
    Examples.out_1x2
  = (Ok, mkTensor [1; 2] Int [100; 400]) /\
  multiply (RT := Reference.runtime) Examples.vector_2 Examples.row_1x2
    Examples.out_1x2
  = (Failed InvalidArgument, Examples.out_1x2) /\
  data (multiply (RT := Reference.runtime) Examples.row_1x2 Examples.vector_2
          Examples.out_1x2).2
  <> data (multiply (RT := Reference.runtime) Examples.vector_2
             Examples.row_1x2 Examples.out_1x2).2.
Proof.
  split; [reflexivity |]. split; [reflexivity |].
  split; [reflexivity |]. split; [reflexivity |].
  vm_compute. discriminate.
Qed.

Lemma scalar_operator_checks_abort_witness :
  opt_mul_scalar_out (RT := Reference.runtime) Examples.three_objects 0
    (mkScalar IsFloatingPoint 2) 2
  = mkResult (RT := Reference.runtime) Aborted Examples.three_objects /\
  opt_mul_scalar_out (RT := Reference.runtime) Examples.three_objects 1
    (mkScalar IsIntegral 3) 2
  = mkResult (RT := Reference.runtime) Aborted Examples.three_objects.
Proof.
  split.
  - apply (proj1 (scalar_operator_checks_abort (RT := Reference.runtime)
                    Examples.three_objects 0 2 (mkScalar IsFloatingPoint 2))).
    vm_compute. discriminate.
  - apply (proj1 (proj2 (scalar_operator_checks_abort
                           (RT := Reference.runtime)
                           Examples.three_objects 1 2
                           (mkScalar IsIntegral 3))));
      reflexivity.
Defined.

Lemma only_output_modified_witness :
  store (opt_mul_out (RT := Reference.runtime) Examples.three_objects 0 1 2)
    !! 0%nat = Some Examples.matrix_2x2 /\
  store (opt_mul_scalar_out (RT := Reference.runtime) Examples.three_objects
           0 (mkScalar IsIntegral 3) 2) !! 0%nat = Some Examples.matrix_2x2.
Proof.
  apply (only_output_modified (RT := Reference.runtime)
           Examples.three_objects 0 1 2 0 (mkScalar IsIntegral 3)).
  discriminate.
Defined.

(** An in-place call, where the first operand is also the output object:
    the product lands in the operand's own buffer. *)
Example in_place_call :
  let r := opt_mul_out (RT := Reference.runtime) Examples.in_place_objects
             0 1 0 in
  status r = Ok /\
  store r !! 0%nat = Some (mkTensor [2; 2] Int [3; 6; 9; 12]) /\
  store r !! 1%nat = Some Examples.single_3.
Proof. repeat split; reflexivity. Qed.

(** * Further properties of the shape classifier *)

Lemma sizes_match_ignoring_leading_1s_eq (lhs rhs : list Z) :
  sizes_match_ignoring_leading_1s lhs rhs = true <->
  arrayref_begin_ignoring_leading_1s lhs
  = arrayref_begin_ignoring_leading_1s rhs.
Proof.
  unfold sizes_match_ignoring_leading_1s.
  rewrite andb_true_iff, Nat.eqb_eq. split.
  - intros [Hlen Heq]. by apply std_equal_eq.
  - intros Heq. rewrite Heq. split; [done | by apply std_equal_eq].
Qed.

Lemma arrayref_begin_replicate_1 (k : nat) (suffix : list Z) :
  arrayref_begin_ignoring_leading_1s (replicate k 1 ++ suffix)
  = arrayref_begin_ignoring_leading_1s suffix.
Proof. induction k as [|k IH]; simpl; done. Qed.

(** X1. Matching ignoring leading 1s is an equivalence on shapes. *)
Theorem sizes_match_ignoring_leading_1s_equivalence (l m r : list Z) :
  sizes_match_ignoring_leading_1s l l = true /\
  sizes_match_ignoring_leading_1s l r = sizes_match_ignoring_leading_1s r l /\
  (sizes_match_ignoring_leading_1s l m = true ->
   sizes_match_ignoring_leading_1s m r = true ->
   sizes_match_ignoring_leading_1s l r = true).
Proof.
  split; [by apply sizes_match_ignoring_leading_1s_eq |]. split.
  - destruct (sizes_match_ignoring_leading_1s r l) eqn:Hrl.
    + apply sizes_match_ignoring_leading_1s_eq.
      by apply sizes_match_ignoring_leading_1s_eq in Hrl.
    + destruct (sizes_match_ignoring_leading_1s l r) eqn:Hlr; [|done].
      apply sizes_match_ignoring_leading_1s_eq in Hlr.
      symmetry in Hlr. apply sizes_match_ignoring_leading_1s_eq in Hlr.
      congruence.
  - rewrite !sizes_match_ignoring_leading_1s_eq. congruence.
Qed.

(** X2. Two shapes match ignoring leading 1s exactly when they are one common
    shape behind two runs of leading 1s; such shapes count the same number
    of elements, so the selector's element-count test is implied by the
    match. *)
Theorem sizes_match_ignoring_leading_1s_shapes (lhs rhs : list Z) :
  (sizes_match_ignoring_leading_1s lhs rhs = true <->
   exists (k k' : nat) (common : list Z),
     lhs = replicate k 1 ++ common /\ rhs = replicate k' 1 ++ common) /\
  (sizes_match_ignoring_leading_1s lhs rhs = true ->
   shape_numel lhs = shape_numel rhs).
Proof.
  assert (sizes_match_ignoring_leading_1s lhs rhs = true <->
          exists (k k' : nat) (common : list Z),
            lhs = replicate k 1 ++ common /\ rhs = replicate k' 1 ++ common)
    as Hiff.
  { rewrite sizes_match_ignoring_leading_1s_eq. split.
    - intros Heq.
      destruct (arrayref_begin_strips lhs) as (k & Hk & _).
      destruct (arrayref_begin_strips rhs) as (k' & Hk' & _).
      exists k, k', (arrayref_begin_ignoring_leading_1s lhs).
      split; [done |]. by rewrite Heq.
    - intros (k & k' & common & -> & ->).
      by rewrite !arrayref_begin_replicate_1. }
  split; [done |].
  intros (k & k' & common & -> & ->)%Hiff.
  rewrite !shape_numel_app, !shape_numel_replicate_1. done.
Qed.

(** X3. Stripping keeps the element count, is idempotent, and leaves nothing
    of a shape exactly when every extent is 1. *)
Theorem arrayref_begin_ignoring_leading_1s_facts (shape : list Z) :
  shape_numel (arrayref_begin_ignoring_leading_1s shape) = shape_numel shape /\
  arrayref_begin_ignoring_leading_1s
    (arrayref_begin_ignoring_leading_1s shape)
  = arrayref_begin_ignoring_leading_1s shape /\
  (arrayref_begin_ignoring_leading_1s shape = [] <->
   shape = replicate (length shape) 1).
Proof.
  split; [|split].
  - symmetry. apply strips_to_numel, arrayref_begin_strips.
  - induction shape as [|x rest IH]; simpl; [done |].
    destruct (Z.eqb_spec x 1) as [-> | Hne]; [done |]. simpl.
    by rewrite (proj2 (Z.eqb_neq x 1) Hne).
  - induction shape as [|x rest IH]; simpl; [done |].
    destruct (Z.eqb_spec x 1) as [-> | Hne].
    + rewrite IH. split; [by intros <- | by intros [= <-]].
    + split; [done | intros [= ? _]; done].
Qed.

(** * Further properties of the tensor operator *)

Section OperatorFacts.
Context `{RT : Runtime}.
Implicit Types (s : gmap nat (Tensor val)) (A B O T X Y : Tensor val).

Lemma length_rows_written out_type L V (rows cols : nat) (buf : list val) :
  length (rows_written out_type L V rows cols buf) = length buf.
Proof.
  unfold rows_written. generalize (seq 0 rows). intros rs. revert buf.
  induction rs as [|r rs IH]; intros buf; simpl; [done |].
  rewrite IH. generalize (seq 0 cols). intros cs. revert buf.
  induction cs as [|c cs IHc]; intros buf; simpl; [done |].
  by rewrite IHc, length_insert.
Qed.

Lemma length_filled O new_sizes (h : nat -> val) :
  length (data (filled O new_sizes h)) = Z.to_nat (shape_numel new_sizes).
Proof. simpl. by rewrite length_fmap, length_seq. Qed.

(** What a successful outcome looks like. *)
Definition well_shaped A B O T : Prop :=
  scalar_type T = scalar_type O /\
  length (data T) = Z.to_nat (numel T) /\
  (sizes T = sizes A \/ sizes T = sizes B \/
   get_broadcast_target_size (sizes A) (sizes B) = Some (sizes T)).

Lemma well_shaped_swap A B O T : well_shaped B A O T -> well_shaped A B O T.
Proof.
  intros (Hty & Hlen & Hsz). split; [done |]. split; [done |].
  rewrite get_broadcast_target_size_comm. tauto.
Qed.

Lemma single_call_on_well_shaped X Y O T :
  single_call_on X Y O = (Ok, Some T) -> well_shaped X Y O T.
Proof.
  unfold single_call_on, paths_on, scalar_shortcut_on, treat_as_1d_on,
    broadcast_2d_by_1d_on, general_path_on, well_shaped, numel.
  repeat case_match; try done; intros [= <-]; simpl;
    rewrite ?length_fmap, ?length_seq, ?length_rows_written, ?length_resize;
    auto.
Qed.

Lemma zip_with_element_seq (f : val -> val -> val) (l k : list val) :
  length k = length l ->
  (fun i => f (element l i) (element k i)) <$> seq 0 (length l)
  = zip_with f l k.
Proof.
  intros Hlen. apply list_eq. intros i.
  rewrite list_lookup_fmap, lookup_zip_with.
  destruct (l !! i) as [x|] eqn:Hx; simpl.
  - assert (i < length l)%nat as Hi by (by eapply lookup_lt_Some).
    destruct (lookup_lt_is_Some_2 k i) as [y Hy]; [lia |].
    rewrite lookup_seq_lt by done. simpl.
    unfold element. by rewrite Hx, Hy.
  - rewrite lookup_seq_ge; [done |]. by apply lookup_ge_None.
Qed.
End OperatorFacts.

(** X4. Exchanging the operands exchanges the two row-broadcast answers of the
    selector and leaves the other answers as they are. *)
Theorem select_optimized_path_exchange `{RT : Runtime}
    (A B O : Tensor val) :
  select_optimized_path B A O = swap_path (select_optimized_path A B O) /\
  (select_optimized_path A B O = kTreatAs1d <->
   select_optimized_path B A O = kTreatAs1d) /\
  (select_optimized_path A B O = kBroadcast2dBy1d <->
   select_optimized_path B A O = kBroadcast2dBy1dReverseArguments).
Proof.
  pose proof (select_optimized_path_swap A B O) as Hswap.
  split; [done |]. rewrite Hswap.
  destruct (select_optimized_path A B O); simpl; split; split; done.
Qed.

(** X5. The self-call of [opt_mul_out] is taken at most once: for any store
    and any three objects, aliased or not, two units of fuel or more give
    the result of [opt_mul_out], and the swapped call it may make needs a
    single unit. *)
Theorem opt_mul_out_terminates `{RT : Runtime} (fuel : nat)
    (s : gmap nat (Tensor val)) (a b out : nat) :
  (2 <= fuel)%nat ->
  opt_mul_out_fuel fuel s a b out = Some (opt_mul_out s a b out) /\
  (numel (s !!! b) <> 1 -> numel (s !!! a) = 1 ->
   opt_mul_out_fuel 1 s b a out = Some (opt_mul_out s a b out)).
Proof.
  intros Hfuel. split.
  - destruct fuel as [|[|fuel]]; [lia | lia |].
    apply opt_mul_out_fuel_enough.
  - intros Hb Ha. rewrite opt_mul_out_unfold, opt_mul_out_fuel_step.
    by rewrite (proj2 (Z.eqb_neq _ _) Hb), !(proj2 (Z.eqb_eq _ _) Ha).
Qed.

(** X6. The tensor operator never trips a fatal check, whatever the objects
    and however they alias: a call that does not succeed reports
    [InvalidArgument] and has changed nothing in the store, for the failure
    is detected before the first write through the output. *)
Theorem opt_mul_out_failure_modes `{RT : Runtime}
    (s : gmap nat (Tensor val)) (a b out : nat) :
  status (opt_mul_out s a b out) <> Aborted /\
  (status (opt_mul_out s a b out) <> Ok ->
   opt_mul_out s a b out = mkResult (Failed InvalidArgument) s).
Proof.
  rewrite opt_mul_out_unfold.
  repeat case_match; apply single_call_failure.
Qed.

(** X7. A successful call on separate objects leaves a well-formed output: it
    keeps the output's element type, its buffer holds exactly as many
    elements as its new shape counts, and that shape is an operand's shape
    or the broadcast of the two. *)
Theorem multiply_success_shape `{RT : Runtime} (A B O : Tensor val) :
  (multiply A B O).1 = Ok ->
  scalar_type (multiply A B O).2 = scalar_type O /\
  length (data (multiply A B O).2) = Z.to_nat (numel (multiply A B O).2) /\
  (sizes (multiply A B O).2 = sizes A \/
   sizes (multiply A B O).2 = sizes B \/
   get_broadcast_target_size (sizes A) (sizes B)
   = Some (sizes (multiply A B O).2)).
Proof.
  rewrite multiply_on. simpl.
  intros [T HT]%opt_mul_out_on_ok. rewrite HT. simpl.
  unfold opt_mul_out_on in HT.
  destruct (effective_operands_cases A B) as [Heff | Heff];
    rewrite Heff in HT; simpl in HT;
    apply single_call_on_well_shaped in HT.
  - done.
  - by apply well_shaped_swap.
Qed.

(** X8. On the flattened path the operands are multiplied position by
    position, whatever their shapes: the output takes the first operand's
    shape and holds the pairwise products of the two buffers, and the only
    failure is a refused resize. *)
Theorem flatten_is_positional `{RT : Runtime} (A B O : Tensor val) :
  select_optimized_path A B O = kTreatAs1d ->
  wf_tensor A -> wf_tensor B ->
  multiply A B O
  = if resize_ok O (sizes A)
    then (Ok, mkTensor (sizes A) (scalar_type O)
                (zip_with (mul (scalar_type O)) (data A) (data B)))
    else (Failed InvalidArgument, O).
Proof.
  intros Hsel [_ HlenA] [_ HlenB].
  pose proof (select_optimized_path_flatten_numel A B O Hsel) as Hn.
  assert (homogeneous_not_half A B O) as Hty
    by (apply select_optimized_path_fast_type; by rewrite Hsel).
  pose proof Hty as (Hab & Hao & Hhalf).
  rewrite <- Hn in HlenB.
  rewrite multiply_on. unfold opt_mul_out_on, effective_operands.
  rewrite Hn.
  destruct (Z.eqb_spec (numel B) 1) as [Hone | Hmany]; simpl.
  - unfold single_call_on.
    rewrite (proj2 (Z.eqb_eq _ _) Hone), (proj2 (type_gate_true A B O) Hty).
    simpl. unfold scalar_shortcut_on.
    destruct (resize_ok O (sizes A)); [|done].
    rewrite <- Hab, is_realb_not_half by done. simpl. unfold filled.
    rewrite <- Hao. do 2 f_equal.
    rewrite Hn, Hone in HlenA, HlenB.
    change (shape_numel (sizes A)) with (numel A). rewrite Hn, Hone.
    destruct (data A) as [|x [|? ?]]; try done.
    destruct (data B) as [|y [|? ?]]; try done.
    simpl. unfold element. simpl. by rewrite static_cast_same.
  - assert (single_call_on A B O = treat_as_1d_on A B O) as ->.
    { unfold single_call_on, paths_on.
      by rewrite (proj2 (Z.eqb_neq _ _) Hmany), Hsel. }
    unfold treat_as_1d_on.
    destruct (resize_ok O (sizes A)); [|done].
    rewrite <- Hao, is_realb_not_half by done. simpl. unfold filled.
    do 2 f_equal; [done |]. change (shape_numel (sizes A)) with (numel A).
    rewrite <- HlenA. apply zip_with_element_seq. congruence.
Qed.

(** * The scalar operator *)

Section ScalarOperator.
Context `{RT : Runtime}.
Implicit Types (s : gmap nat (Tensor val)) (A B O T : Tensor val)
  (c : Scalar val).

(** What one element of the scalar operator's output is: the operand's
    element and the scalar's payload both converted to the compute type,
    multiplied there, and the product converted to the output type. *)
Definition scalar_product (a_type out_type : ScalarType) c (x : val) : val :=
  let compute_type := scalar_compute_type a_type c in
  static_cast compute_type out_type
    (mul compute_type (static_cast a_type compute_type x)
       (static_cast (get_scalar_dtype c) compute_type (payload c))).

(** What [opt_mul_scalar_out] does to the output object, whether the
    output is a separate object or the operand itself. *)
Definition opt_mul_scalar_out_on A c O : Status * option (Tensor val) :=
  if negb (bool_decide
             (promote_type_with_scalar (scalar_type A) c false
              = scalar_type O))
  then (Aborted, None)
  else if resize_ok O (sizes A) then
    if is_scalar_obj_type (get_scalar_dtype c) then
      (Ok, Some (filled O (sizes A)
                   (fun i =>
                      scalar_product (scalar_type A) (scalar_type O) c
                        (element (data A) i))))
    else (Aborted, Some (resized O (sizes A)))
  else (Aborted, None).

Lemma scalar_compute_type_realb (a_type : ScalarType) c :
  is_realb (scalar_compute_type a_type c) = true.
Proof.
  unfold scalar_compute_type. case_decide; [done |].
  by apply is_realb_not_half.
Qed.

(** The two loops of the operator write the same values. *)
Lemma scalar_fast_product (a_type out_type : ScalarType) c (x : val) :
  a_type = scalar_compute_type a_type c -> a_type = out_type ->
  mul a_type x (static_cast (get_scalar_dtype c) a_type (payload c))
  = scalar_product a_type out_type c x.
Proof.
  intros Hc <-. unfold scalar_product. rewrite <- Hc.
  by rewrite !static_cast_same.
Qed.

(** A loop of writes through [out] whose values read the output object
    only through its buffer acts on that buffer alone. *)
Lemma foldl_write_self {I : Type} (idx : I -> nat)
    (g : gmap nat (Tensor val) -> I -> val) (g1 : list val -> I -> val)
    s out :
  (forall T x, g (<[out := T]> s) x = g1 (data T) x) ->
  forall items O,
    foldl (fun s x => write s out (idx x) (g s x)) (<[out := O]> s) items
    = <[out := mkTensor (sizes O) (scalar_type O)
                 (foldl (fun l x => <[idx x := g1 l x]> l) (data O) items)]> s.
Proof.
  intros Hg. induction items as [|x items IH]; intros O; simpl.
  - by destruct O.
  - by rewrite write_insert, Hg, IH.
Qed.

(** Overwriting each position in turn with a value computed from what the
    position held. *)
Lemma foldl_update_seq {X : Type} (junk0 : X) (h : X -> nat -> X) (n : nat) :
  forall base (l : list X),
    (base + n <= length l)%nat ->
    foldl (fun l i => <[i := h (default junk0 (l !! i)) i]> l) l (seq base n)
    = take base l ++ ((fun i => h (default junk0 (l !! i)) i) <$> seq base n)
      ++ drop (base + n) l.
Proof.
  induction n as [|n IH]; intros base l Hlen; simpl.
  - by rewrite Nat.add_0_r, take_drop.
  - rewrite IH by (rewrite length_insert; lia).
    rewrite (take_S_r _ _ (h (default junk0 (l !! base)) base)) by
      (rewrite list_lookup_insert_eq by lia; done).
    rewrite take_insert_ge by lia.
    rewrite drop_insert_lt by lia.
    rewrite <- app_assoc. simpl. do 2 f_equal.
    f_equal; [|f_equal; lia].
    apply list_fmap_ext. intros j i Hi.
    apply lookup_seq in Hi as [-> _].
    by rewrite list_lookup_insert_ne by lia.
Qed.

Lemma foldl_update_all (h : val -> nat -> val) (l : list val) :
  foldl (fun l i => <[i := h (element l i) i]> l) l (seq 0 (length l))
  = (fun i => h (element l i) i) <$> seq 0 (length l).
Proof.
  unfold element. rewrite (foldl_update_seq junk h) by lia. simpl.
  by rewrite drop_all, app_nil_r.
Qed.

Lemma resized_same T :
  length (data T) = Z.to_nat (numel T) -> resized T (sizes T) = T.
Proof.
  intros Hlen. unfold resized. destruct T as [sz ty dat]. simpl in *.
  f_equal. unfold numel in Hlen. simpl in Hlen. by rewrite <- Hlen, resize_all.
Qed.

Lemma filled_self T (h : nat -> val) :
  length (data T) = Z.to_nat (numel T) ->
  mkTensor (sizes T) (scalar_type T) (h <$> seq 0 (length (data T)))
  = filled T (sizes T) h.
Proof. intros Hlen. unfold filled. by rewrite Hlen. Qed.

(** [vec_map] from the output object onto itself. *)
Lemma vec_map_self f s a T :
  length (data T) = Z.to_nat (numel T) ->
  vec_map f a a (numel T) (<[a := T]> s)
  = <[a := filled T (sizes T) (fun i => f (element (data T) i))]> s.
Proof.
  intros Hlen. unfold vec_map.
  rewrite (foldl_write_self id (fun s i => f (read s a i))
             (fun l i => f (element l i)))
    by (intros; unfold read; by rewrite lookup_total_insert_eq).
  rewrite <- Hlen.
  rewrite (foldl_update_all (fun x _ => f x)).
  by rewrite filled_self.
Qed.

Lemma scalar_call_store_lookups A O :
  scalar_call_store A O !!! 0%nat = A /\ scalar_call_store A O !!! 2%nat = O.
Proof.
  unfold scalar_call_store.
  by rewrite lookup_total_insert_ne, !lookup_total_insert_eq.
Qed.

(** The operator on an output object distinct from the operand. *)
Lemma opt_mul_scalar_out_separate s a c out :
  a <> out ->
  opt_mul_scalar_out s a c out
  = into_store s out (opt_mul_scalar_out_on (s !!! a) c (s !!! out)).
Proof.
  intros Hne. unfold opt_mul_scalar_out, opt_mul_scalar_out_on, into_store.
  destruct (negb _); [done |].
  rewrite resize_tensor_unfold.
  destruct (resize_ok _ _); [|done].
  fold (scalar_compute_type (scalar_type (s !!! a)) c).
  rewrite scalar_compute_type_realb, andb_true_r. unfold is_realhb. simpl.
  rewrite !andb_true_r.
  destruct (bool_decide _ && bool_decide _ && negb _) eqn:Hfast.
  - apply andb_true_iff in Hfast as [Hfast Hhalf].
    apply andb_true_iff in Hfast as [Hc Ho].
    apply bool_decide_eq_true in Hc, Ho.
    apply negb_true_iff, bool_decide_eq_false in Hhalf.
    rewrite is_realb_not_half by done. simpl.
    destruct (is_scalar_obj_type _); [|done]. simpl. f_equal.
    rewrite lookup_total_insert_eq. unfold numel. simpl sizes.
    rewrite vec_map_resized by done. f_equal.
    apply filled_ext. intros i _. by apply scalar_fast_product.
  - destruct (is_scalar_obj_type _); [|done]. simpl. f_equal.
    rewrite lookup_total_insert_ne by done.
    rewrite (foldl_write_other id
               (fun s' i =>
                  static_cast _ (scalar_type (s !!! out))
                    (mul _ (static_cast (scalar_type (s !!! a)) _
                              (read s' a i)) _))
               (fun i =>
                  scalar_product (scalar_type (s !!! a))
                    (scalar_type (s !!! out)) c
                    (element (data (s !!! a)) i)))
      by (intros; by rewrite read_insert_ne).
    unfold filled. simpl sizes. simpl scalar_type. do 2 f_equal.
    unfold numel. rewrite <- (resized_length (s !!! out) (sizes (s !!! a))).
    apply foldl_insert_all.
Qed.
End ScalarOperator.

Section InPlace.
Context `{RT : Runtime}.
Implicit Types (s : gmap nat (Tensor val)) (A B O T : Tensor val)
  (c : Scalar val).

(** The scalar operator with the operand itself as output. *)
Lemma opt_mul_scalar_out_self s a c :
  length (data (s !!! a)) = Z.to_nat (numel (s !!! a)) ->
  opt_mul_scalar_out s a c a
  = into_store s a (opt_mul_scalar_out_on (s !!! a) c (s !!! a)).
Proof.
  intros Hlen. unfold opt_mul_scalar_out, opt_mul_scalar_out_on, into_store.
  destruct (negb _); [done |].
  rewrite resize_tensor_unfold.
  destruct (resize_ok _ _); [|done].
  fold (scalar_compute_type (scalar_type (s !!! a)) c).
  rewrite scalar_compute_type_realb, andb_true_r. unfold is_realhb. simpl.
  rewrite !andb_true_r, lookup_total_insert_eq, resized_same by done.
  destruct (bool_decide _ && bool_decide _ && negb _) eqn:Hfast.
  - apply andb_true_iff in Hfast as [Hfast Hhalf].
    apply andb_true_iff in Hfast as [Hc _].
    apply bool_decide_eq_true in Hc.
    apply negb_true_iff, bool_decide_eq_false in Hhalf.
    rewrite is_realb_not_half by done. simpl.
    destruct (is_scalar_obj_type _); [|done]. simpl. f_equal.
    rewrite vec_map_self by done. f_equal.
    apply filled_ext. intros i _. by apply scalar_fast_product.
  - destruct (is_scalar_obj_type _); [|done]. simpl. f_equal.
    rewrite (foldl_write_self id
               (fun s' i =>
                  static_cast _ (scalar_type (s !!! a))
                    (mul _ (static_cast (scalar_type (s !!! a)) _
                              (read s' a i)) _))
               (fun l i =>
                  scalar_product (scalar_type (s !!! a))
                    (scalar_type (s !!! a)) c (element l i)))
      by (intros; unfold read; by rewrite lookup_total_insert_eq).
    rewrite <- Hlen.
    rewrite (foldl_update_all
               (fun x _ => scalar_product (scalar_type (s !!! a))
                             (scalar_type (s !!! a)) c x)).
    by rewrite filled_self.
Qed.

Lemma multiply_scalar_on A c O :
  multiply_scalar A c O
  = ((opt_mul_scalar_out_on A c O).1,
     default O (opt_mul_scalar_out_on A c O).2).
Proof.
  unfold multiply_scalar. rewrite opt_mul_scalar_out_separate by done.
  destruct (scalar_call_store_lookups A O) as [-> ->].
  unfold into_store. simpl. f_equal.
  destruct (opt_mul_scalar_out_on A c O).2.
  - by rewrite lookup_total_insert_eq.
  - by destruct (scalar_call_store_lookups A O) as [_ ->].
Qed.

(** [vec_map2] with the output object as its first input. *)
Lemma vec_map2_self f s a b T :
  b <> a ->
  length (data T) = Z.to_nat (numel T) ->
  vec_map2 f a a b (numel T) (<[a := T]> s)
  = <[a := filled T (sizes T)
              (fun i => f (element (data T) i)
                          (element (data (s !!! b)) i))]> s.
Proof.
  intros Hne Hlen. unfold vec_map2.
  rewrite (foldl_write_self id
             (fun s i => f (read s a i) (read s b i))
             (fun l i => f (element l i) (element (data (s !!! b)) i)))
    by (intros; unfold read;
        by rewrite lookup_total_insert_eq, lookup_total_insert_ne).
  rewrite <- Hlen.
  rewrite (foldl_update_all
             (fun x i => f x (element (data (s !!! b)) i))).
  by rewrite filled_self.
Qed.

Lemma scalar_shortcut_self s a b :
  b <> a ->
  length (data (s !!! a)) = Z.to_nat (numel (s !!! a)) ->
  scalar_shortcut (scalar_type (s !!! a)) (scalar_type (s !!! b)) s a b a
  = into_store s a (scalar_shortcut_on (s !!! a) (s !!! b) (s !!! a)).
Proof.
  intros Hne Hlen. unfold scalar_shortcut, scalar_shortcut_on, into_store.
  rewrite resize_tensor_unfold.
  destruct (resize_ok _ _); [|done].
  rewrite resized_same by done.
  destruct (is_realb _ && is_realb _); [|done]. simpl. f_equal.
  rewrite lookup_total_insert_eq, read_insert_ne by done.
  by rewrite vec_map_self.
Qed.

Lemma treat_as_1d_self s a b :
  b <> a ->
  length (data (s !!! a)) = Z.to_nat (numel (s !!! a)) ->
  treat_as_1d (scalar_type (s !!! a)) s a b a
  = into_store s a (treat_as_1d_on (s !!! a) (s !!! b) (s !!! a)).
Proof.
  intros Hne Hlen. unfold treat_as_1d, treat_as_1d_on, into_store.
  rewrite resize_tensor_unfold.
  destruct (resize_ok _ _); [|done].
  rewrite resized_same by done.
  destruct (is_realb _); [|done]. simpl. f_equal.
  rewrite lookup_total_insert_eq.
  by rewrite vec_map2_self.
Qed.

Lemma into_store_lookup s out O (r : Status * option (Tensor val)) :
  s !!! out = O ->
  status (into_store s out r) = r.1 /\
  store (into_store s out r) !!! out = default O r.2.
Proof.
  intros HO. unfold into_store. simpl. split; [done |].
  destruct r.2; [by rewrite lookup_total_insert_eq | done].
Qed.
End InPlace.

(** X9. A successful call of the scalar operator on separate objects gives
    the output the operand's shape and puts at each position the product,
    taken in the compute type, of the operand's element and the scalar,
    converted to the output type. The compute type is the promoted type,
    or [Float] when that is [Half]. *)
Theorem scalar_operator_values `{RT : Runtime} (A : Tensor val)
    (c : Scalar val) (O : Tensor val) :
  promote_type_with_scalar (scalar_type A) c false = scalar_type O ->
  is_scalar_obj_type (get_scalar_dtype c) = true ->
  resize_ok O (sizes A) = true ->
  wf_tensor A ->
  multiply_scalar A c O
  = (Ok, mkTensor (sizes A) (scalar_type O)
           (scalar_product (scalar_type A) (scalar_type O) c <$> data A)) /\
  scalar_compute_type (scalar_type A) c <> Half.
Proof.
  intros Hprom Hobj Hresize [_ Hlen]. split.
  - rewrite multiply_scalar_on. unfold opt_mul_scalar_out_on.
    rewrite bool_decide_eq_true_2, Hresize, Hobj by done. simpl.
    unfold filled. do 2 f_equal. unfold numel in Hlen. rewrite <- Hlen.
    apply (fmap_element_seq (scalar_product _ _ c)).
  - unfold scalar_compute_type. by case_decide.
Qed.

(** X10. Multiplying by a single-element tensor and multiplying by a scalar
    of the same value: when the types are homogeneous and not [Half], the
    scalar leaves the tensor's type as the promoted type, and the tensor's
    single element is the scalar's payload converted to that type, the two
    operators leave the same output object. When the output accepts the
    tensor's shape both succeed with the same products. When it refuses
    the resize both hand the output back untouched, but their statuses
    differ: the tensor operator reports [InvalidArgument], the scalar
    operator trips its fatal check. *)
Theorem scalar_shortcut_equivalence `{RT : Runtime} (A B : Tensor val)
    (c : Scalar val) (O : Tensor val) :
  numel B = 1 ->
  homogeneous_not_half A B O ->
  wf_tensor A ->
  promote_type_with_scalar (scalar_type A) c false = scalar_type A ->
  is_scalar_obj_type (get_scalar_dtype c) = true ->
  element (data B) 0
  = static_cast (get_scalar_dtype c) (scalar_type A) (payload c) ->
  (multiply A B O).2 = (multiply_scalar A c O).2 /\
  if resize_ok O (sizes A)
  then (multiply A B O).1 = Ok /\ (multiply_scalar A c O).1 = Ok
  else multiply A B O = (Failed InvalidArgument, O) /\
       multiply_scalar A c O = (Aborted, O).
Proof.
  intros Hn Hty Hwf Hprom Hobj Hval.
  pose proof Hty as (Hab & Hao & Hhalf).
  rewrite multiply_single_right by done.
  rewrite multiply_scalar_on. unfold opt_mul_scalar_out_on, scalar_broadcast.
  rewrite Hprom, bool_decide_eq_true_2, Hobj by done. simpl.
  destruct (resize_ok O (sizes A)); simpl; [|done].
  split; [|done].
  destruct Hwf as [_ Hlen].
  unfold filled. f_equal. unfold numel in Hlen. rewrite <- Hlen.
  rewrite (fmap_element_seq (scalar_product _ _ c)).
  apply list_fmap_ext. intros i x _. rewrite Hval.
  apply scalar_fast_product; [|done].
  unfold scalar_compute_type. rewrite Hprom. by rewrite decide_False.
Qed.

(** X11. The scalar operator can run in place: with the operand itself passed
    as output, the status and the object left behind are those of a call
    into a separate output object that starts as a copy of the operand. *)
Theorem scalar_operator_in_place `{RT : Runtime}
    (s : gmap nat (Tensor val)) (a : nat) (c : Scalar val) :
  wf_tensor (s !!! a) ->
  status (opt_mul_scalar_out s a c a)
  = (multiply_scalar (s !!! a) c (s !!! a)).1 /\
  store (opt_mul_scalar_out s a c a) !!! a
  = (multiply_scalar (s !!! a) c (s !!! a)).2.
Proof.
  intros [_ Hlen].
  rewrite opt_mul_scalar_out_self, multiply_scalar_on by done. simpl.
  by apply into_store_lookup.
Qed.

(** X12. The tensor operator can run in place on its first operand along the
    scalar shortcut and the flattened path: with the first operand passed
    as output, and the second a different object, the status and the
    object left behind are those of a call into a separate output that
    starts as a copy of the first operand. *)
Theorem tensor_operator_in_place `{RT : Runtime}
    (s : gmap nat (Tensor val)) (a b : nat) :
  b <> a ->
  wf_tensor (s !!! a) ->
  (numel (s !!! b) = 1 /\
   homogeneous_not_half (s !!! a) (s !!! b) (s !!! a)) \/
  select_optimized_path (s !!! a) (s !!! b) (s !!! a) = kTreatAs1d ->
  status (opt_mul_out s a b a) = (multiply (s !!! a) (s !!! b) (s !!! a)).1 /\
  store (opt_mul_out s a b a) !!! a
  = (multiply (s !!! a) (s !!! b) (s !!! a)).2.
Proof.
  intros Hne [_ Hlen] Hpath.
  assert (opt_mul_out s a b a
          = into_store s a
              (opt_mul_out_on (s !!! a) (s !!! b) (s !!! a))) as ->.
  { rewrite opt_mul_out_unfold. unfold opt_mul_out_on, effective_operands.
    assert (homogeneous_not_half (s !!! a) (s !!! b) (s !!! a)) as Hty.
    { destruct Hpath as [[_ Hty] | Hsel]; [done |].
      apply select_optimized_path_fast_type. by rewrite Hsel. }
    pose proof (proj2 (type_gate_true _ _ _) Hty) as Hgate.
    unfold type_gate in Hgate.
    destruct (Z.eqb_spec (numel (s !!! b)) 1) as [Hone | Hmany]; simpl.
    - unfold single_call, single_call_on, type_gate.
      rewrite (proj2 (Z.eqb_eq _ _) Hone), Hgate. simpl.
      by apply scalar_shortcut_self.
    - destruct Hpath as [[? _] | Hsel]; [done |].
      pose proof (select_optimized_path_flatten_numel _ _ _ Hsel) as Hn.
      rewrite (proj2 (Z.eqb_neq (numel (s !!! a)) 1)) by congruence. simpl.
      unfold single_call, single_call_on, paths_on.
      rewrite (proj2 (Z.eqb_neq _ _) Hmany), Hsel. simpl.
      by apply treat_as_1d_self. }
  rewrite multiply_on. simpl. by apply into_store_lookup.
Qed.

(** * The row-broadcast paths against the general path *)

Section RowBroadcastGeneral.
Context `{RT : Runtime}.
Implicit Types (A B O L V T : Tensor val).

Lemma broadcast_index_rev_ones (k : nat) : forall (os : list Z) (j : Z),
  broadcast_index_rev os (replicate k 1) j = 0.
Proof.
  induction k as [|k IH]; intros [|o os] j; simpl; try done.
  rewrite IH. lia.
Qed.

Lemma broadcast_shape_rev_ones (k : nat) : forall k' : nat,
  exists m : nat,
    broadcast_shape_rev (replicate k 1) (replicate k' 1)
    = Some (replicate m 1).
Proof.
  induction k as [|k IH]; intros [|k']; simpl.
  - by exists 0%nat.
  - by exists (S k').
  - by exists (S k).
  - destruct (IH k') as [m ->]. by exists (S m).
Qed.

Lemma broadcast_shape_rev_rows (r c : Z) (k k' : nat) :
  exists m : nat,
    broadcast_shape_rev (c :: r :: replicate k 1) (c :: replicate k' 1)
    = Some (c :: r :: replicate m 1).
Proof.
  simpl. rewrite Z.eqb_refl. simpl.
  destruct k' as [|k']; simpl.
  - by exists k.
  - rewrite orb_true_r.
    destruct (broadcast_shape_rev_ones k k') as [m ->]. by exists m.
Qed.

Lemma reverse_ones_suffix (k : nat) (suffix : list Z) :
  reverse (replicate k 1 ++ suffix) = reverse suffix ++ replicate k 1.
Proof. by rewrite reverse_app, reverse_replicate. Qed.

(** Positions read by the general loop when a matrix meets a vector. *)
Lemma broadcast_index_rev_matrix (r c : Z) (m k : nat) (i : Z) :
  0 <= r -> 0 <= c -> 0 <= i < r * c ->
  broadcast_index_rev (c :: r :: replicate m 1) (c :: r :: replicate k 1) i
  = i.
Proof.
  intros Hr Hc Hi. simpl. rewrite broadcast_index_rev_ones.
  assert (0 < c) by (destruct (decide (c = 0)); [subst; lia | lia]).
  assert (0 < r) by (destruct (decide (r = 0)); [subst; lia | lia]).
  assert (0 <= i / c < r) as Hq.
  { split; [apply Z.div_pos; lia |]. apply Z.div_lt_upper_bound; lia. }
  pose proof (Z.div_mod i c).
  destruct (Z.eqb_spec c 1) as [-> | _], (Z.eqb_spec r 1) as [-> | _].
  - lia.
  - rewrite Z.div_1_r in *. rewrite Z.mod_small by lia. lia.
  - assert (i / c = 0) by lia. lia.
  - rewrite (Z.mod_small (i / c)) by lia. lia.
Qed.

Lemma broadcast_index_rev_vector (r c : Z) (m k : nat) (i : Z) :
  c <> 1 ->
  broadcast_index_rev (c :: r :: replicate m 1) (c :: replicate k 1) i
  = i mod c.
Proof.
  intros Hc. simpl. rewrite (proj2 (Z.eqb_neq c 1) Hc).
  destruct k as [|k]; simpl; [lia |].
  rewrite broadcast_index_rev_ones. lia.
Qed.

(** The general path on a matrix [L] and a vector [V] of one element
    kind. *)
Lemma general_path_on_rows L V O (rows cols : nat) :
  (forall t, t <> Half -> promoteTypes t t true = t) ->
  (forall t, canCast t t = true) ->
  homogeneous_not_half L V O ->
  strips_to (sizes L) [Z.of_nat rows; Z.of_nat cols] ->
  strips_to (sizes V) [Z.of_nat cols] ->
  (general_path_on L V O).1 = Ok ->
  exists target,
    shape_numel target = Z.of_nat (rows * cols) /\
    general_path_on L V O
    = (Ok, Some (filled O target
                   (fun i =>
                      mul (scalar_type O) (element (data L) i)
                        (element (data V) (i mod cols))))).
Proof.
  intros Hprom Hcast (Hlv & Hlo & Hhalf) HL HV.
  pose proof (strips_to_head_not_1 _ _ _ HV) as Hc1.
  destruct HL as (k & HL & _). destruct HV as (k' & HV & _).
  unfold general_path_on, get_broadcast_target_size.
  rewrite <- Hlv, <- Hlo, Hprom, Hcast by done.
  rewrite HL, HV, !reverse_ones_suffix.
  change (reverse [Z.of_nat rows; Z.of_nat cols] ++ replicate k 1)
    with (Z.of_nat cols :: Z.of_nat rows :: replicate k 1).
  change (reverse [Z.of_nat cols] ++ replicate k' 1)
    with (Z.of_nat cols :: replicate k' 1).
  destruct (broadcast_shape_rev_rows (Z.of_nat rows) (Z.of_nat cols) k k')
    as [m Hm].
  rewrite Hm. cbn [negb fmap option_fmap option_map].
  destruct (resize_ok O _) eqn:Hresize; [|done]. intros _.
  eexists. split; [|f_equal; f_equal; apply filled_ext; intros i Hi].
  - rewrite shape_numel_reverse. unfold shape_numel. simpl.
    fold (shape_numel (replicate m 1)). rewrite shape_numel_replicate_1. lia.
  - rewrite shape_numel_reverse in Hi. unfold shape_numel in Hi.
    simpl in Hi. fold (shape_numel (replicate m 1)) in Hi.
    rewrite shape_numel_replicate_1 in Hi.
    rewrite !static_cast_same. unfold broadcast_index.
    rewrite reverse_involutive, !reverse_ones_suffix.
    change (reverse [Z.of_nat rows; Z.of_nat cols] ++ replicate k 1)
      with (Z.of_nat cols :: Z.of_nat rows :: replicate k 1).
    change (reverse [Z.of_nat cols] ++ replicate k' 1)
      with (Z.of_nat cols :: replicate k' 1).
    rewrite broadcast_index_rev_matrix by lia.
    rewrite broadcast_index_rev_vector by done.
    rewrite Nat2Z.id. f_equal. f_equal.
    rewrite <- Nat2Z.inj_mod. by rewrite Nat2Z.id.
Qed.
End RowBroadcastGeneral.

Section RowBroadcastAgainstGeneral.
Context `{RT : Runtime}.
Implicit Types (A B O L V T : Tensor val).

Lemma general_path_on_exchange A B O :
  (forall t x y, mul t x y = mul t y x) ->
  scalar_type A = scalar_type B ->
  general_path_on A B O = general_path_on B A O.
Proof.
  intros Hcomm Hty. unfold general_path_on.
  rewrite (get_broadcast_target_size_comm (sizes A)), Hty.
  destruct (negb _); [done |].
  destruct (get_broadcast_target_size _ _) as [target|]; [|done].
  destruct (resize_ok O target); [|done].
  do 2 f_equal. apply filled_ext. intros i _. by rewrite Hcomm.
Qed.

Lemma broadcast_2d_by_1d_on_data L V O (rows cols : nat) :
  scalar_type O <> Half ->
  strips_to (sizes L) [Z.of_nat rows; Z.of_nat cols] ->
  (broadcast_2d_by_1d_on L V O).1 = Ok ->
  data (default O (broadcast_2d_by_1d_on L V O).2)
  = (fun i => mul (scalar_type O) (element (data L) i)
                (element (data V) (i mod cols)))
    <$> seq 0 (rows * cols).
Proof.
  intros Hhalf Hstrip. unfold broadcast_2d_by_1d_on.
  destruct (resize_ok O (sizes L)); [|done].
  rewrite is_realb_not_half by done. simpl. intros _.
  destruct (strips_to_last_two _ _ _ Hstrip) as [-> ->].
  rewrite !Nat2Z.id. apply rows_written_all.
  rewrite length_resize, (strips_to_numel _ _ Hstrip).
  unfold shape_numel. simpl. lia.
Qed.
End RowBroadcastAgainstGeneral.

(** X13. Whenever the selector picks a row-broadcast path, the fast path
    writes the values the general path would have written: if the call
    and the general path run on the same call both succeed, their outputs
    hold the same values position by position. The runtime laws assumed
    are that a kind other than [Half] promotes with itself to itself, that
    every kind can be cast to itself, and that products commute (the
    swapped variant multiplies in the other order). *)
Theorem row_broadcast_agrees_with_general `{RT : Runtime}
    (A B O : Tensor val) :
  (forall t, t <> Half -> promoteTypes t t true = t) ->
  (forall t, canCast t t = true) ->
  (forall t x y, mul t x y = mul t y x) ->
  select_optimized_path A B O = kBroadcast2dBy1d \/
  select_optimized_path A B O = kBroadcast2dBy1dReverseArguments ->
  wf_tensor A -> wf_tensor B ->
  (multiply A B O).1 = Ok ->
  (multiply_general A B O).1 = Ok ->
  data (multiply A B O).2 = data (multiply_general A B O).2.
Proof.
  intros Hprom Hcast Hcomm Hsel HwfA HwfB.
  assert (exists L V,
            ((select_optimized_path A B O = kBroadcast2dBy1d /\
              L = A /\ V = B) \/
             (select_optimized_path A B O = kBroadcast2dBy1dReverseArguments /\
              L = B /\ V = A)) /\
            wf_tensor L /\
            homogeneous_not_half L V O /\
            general_path_on A B O = general_path_on L V O /\
            exists r c, strips_to (sizes L) [r; c] /\ strips_to (sizes V) [c])
    as (L & V & Hcase & HwfL & Hty & Hgen & r & c & HL & HV).
  { destruct Hsel as [Hsel | Hsel].
    - exists A, B. split; [by left |]. split; [done |].
      destruct (select_broadcast_shapes A B O Hsel) as [Hty Hshape].
      split; [done |]. split; [done |]. done.
    - exists B, A. split; [by right |]. split; [done |].
      destruct (select_broadcast_shapes_reverse A B O Hsel) as [Hty Hshape].
      split; [by apply homogeneous_not_half_swap |].
      split; [|done].
      apply general_path_on_exchange; [done |]. by destruct Hty. }
  destruct (multiply_row_broadcast A B O L V Hcase HwfL)
    as (rows & cols & Hstrip & _ & Hhalf & Hmul).
  assert ([r; c] = [Z.of_nat rows; Z.of_nat cols]) as [= -> ->].
  { apply strips_to_unique in HL, Hstrip. congruence. }
  rewrite Hmul, multiply_general_on, Hgen. simpl.
  intros Hfast Hok.
  rewrite (broadcast_2d_by_1d_on_data L V O rows cols) by done.
  destruct (general_path_on_rows L V O rows cols)
    as (target & Hnumel & ->); try done.
  simpl. by rewrite Hnumel, Nat2Z.id.
Qed.

(** X14. A call whose element types are not all one kind other than [Half] is
    the general path, run on the operands in the order in which the call
    treats them: neither the scalar shortcut nor a fast path ever
    multiplies mixed or [Half] operands. *)
Theorem mixed_types_take_general_path `{RT : Runtime} (A B O : Tensor val) :
  ~ homogeneous_not_half A B O ->
  multiply A B O
  = multiply_general (effective_operands A B).1 (effective_operands A B).2 O.
Proof.
  intros Hty.
  destruct (effective_operands A B) as [X Y] eqn:Heff.
  destruct (mixed_types_route A B O X Y Hty Heff) as [Hgate Hsel].
  rewrite (multiply_general_route A B O X Y) by done.
  by rewrite multiply_general_on.
Qed.

(** X15. Two [Half] operands are multiplied in [Float], even when the output
    is [Half] too: each element is converted to [Float], the product is
    taken there and converted to the output type. The operands are taken
    in the order in which the call treats them, and read at their
    broadcast positions. *)
Theorem half_multiplies_in_float `{RT : Runtime}
    (A B O X Y : Tensor val) (target : list Z) :
  promoteTypes Half Half true = Float ->
  canCast Float (scalar_type O) = true ->
  scalar_type A = Half -> scalar_type B = Half ->
  effective_operands A B = (X, Y) ->
  get_broadcast_target_size (sizes X) (sizes Y) = Some target ->
  resize_ok O target = true ->
  multiply A B O
  = (Ok, filled O target
           (fun i =>
              static_cast Float (scalar_type O)
                (mul Float
                   (convert Half Float
                      (element (data X) (broadcast_index target (sizes X) i)))
                   (convert Half Float
                      (element (data Y)
                         (broadcast_index target (sizes Y) i)))))).
Proof.
  intros Hprom Hcast HA HB Heff Htarget Hresize.
  assert (~ homogeneous_not_half A B O) as Hty.
  { intros (_ & _ & Hhalf). done. }
  destruct (mixed_types_route A B O X Y Hty Heff) as [Hgate Hsel].
  rewrite (multiply_general_route A B O X Y) by done.
  assert (scalar_type X = Half /\ scalar_type Y = Half) as [HX HY].
  { destruct (effective_operands_cases A B) as [H | H];
      rewrite H in Heff; by injection Heff as <- <-. }
  unfold general_path_on.
  rewrite HX, HY, Hprom, Hcast, Htarget, Hresize. simpl.
  do 2 f_equal.
Qed.

(** X16. The flattened path multiplies operands that the general path refuses:
    when the selector answers the flattened path for two shapes that do not
    broadcast against each other (equal element counts, an output of that
    count), the call succeeds as soon as the output accepts the first
    operand's shape, while the general path run on the same call fails
    with [InvalidArgument]. *)
Theorem flatten_accepts_unbroadcastable_shapes `{RT : Runtime}
    (A B O : Tensor val) :
  select_optimized_path A B O = kTreatAs1d ->
  get_broadcast_target_size (sizes A) (sizes B) = None ->
  resize_ok O (sizes A) = true ->
  (multiply A B O).1 = Ok /\
  sizes (multiply A B O).2 = sizes A /\
  multiply_general A B O = (Failed InvalidArgument, O).
Proof.
  intros Hsel Htarget Hresize.
  pose proof (select_optimized_path_flatten_numel A B O Hsel) as Hn.
  assert (homogeneous_not_half A B O) as Hty
    by (apply select_optimized_path_fast_type; by rewrite Hsel).
  pose proof Hty as (Hab & Hao & Hhalf).
  split; [|split].
  - rewrite multiply_on. unfold opt_mul_out_on, effective_operands.
    rewrite Hn. destruct (numel B =? 1) eqn:HB; simpl.
    + unfold single_call_on.
      rewrite HB, (proj2 (type_gate_true A B O) Hty). simpl.
      unfold scalar_shortcut_on.
      by rewrite Hresize, <- Hab, is_realb_not_half.
    + unfold single_call_on, paths_on, treat_as_1d_on.
      by rewrite HB, Hsel, Hresize, <- Hao, is_realb_not_half.
  - rewrite multiply_on. unfold opt_mul_out_on, effective_operands.
    rewrite Hn. destruct (numel B =? 1) eqn:HB; simpl.
    + unfold single_call_on.
      rewrite HB, (proj2 (type_gate_true A B O) Hty). simpl.
      unfold scalar_shortcut_on.
      by rewrite Hresize, <- Hab, is_realb_not_half.
    + unfold single_call_on, paths_on, treat_as_1d_on.
      by rewrite HB, Hsel, Hresize, <- Hao, is_realb_not_half.
  - rewrite multiply_general_on. unfold general_path_on.
    rewrite Htarget. by destruct (negb _).
Qed.

(** X17. The loop bounds of the fast paths stay inside the operands'
    buffers. On the flattened path the two operands count the same number
    of elements. On a row-broadcast path, with [L] the matrix operand and
    [V] the vector operand, the matrix has at least two dimensions, the
    row count and row length read from its last two extents multiply to
    its element count, the row length is the vector's element count, and
    neither operand has a single element. *)
Theorem fast_path_bounds `{RT : Runtime} (A B O L V : Tensor val) :
  (select_optimized_path A B O = kTreatAs1d -> numel A = numel B) /\
  ((select_optimized_path A B O = kBroadcast2dBy1d /\ L = A /\ V = B) \/
   (select_optimized_path A B O = kBroadcast2dBy1dReverseArguments /\
    L = B /\ V = A) ->
   wf_shape (sizes L) ->
   let lhs_dim := length (sizes L) in
   let rows := nth (lhs_dim - 2) (sizes L) 0 in
   let cols := nth (lhs_dim - 1) (sizes L) 0 in
   (2 <= lhs_dim)%nat /\
   numel L = rows * cols /\ numel V = cols /\
   numel L <> 1 /\ numel V <> 1).
Proof.
  split; [apply select_optimized_path_flatten_numel |].
  intros Hsel Hwf lhs_dim rows cols.
  assert (exists r c, strips_to (sizes L) [r; c] /\ strips_to (sizes V) [c])
    as (r & c & HL & HV).
  { destruct Hsel as [(Hsel & -> & ->) | (Hsel & -> & ->)].
    - by apply select_broadcast_shapes in Hsel as [_ ?].
    - by apply select_broadcast_shapes_reverse in Hsel as [_ ?]. }
  pose proof (strips_to_wf_shape _ _ HL Hwf) as Hrc.
  apply Forall_cons in Hrc as [Hr Hc]. apply Forall_cons in Hc as [Hc _].
  pose proof (strips_to_head_not_1 _ _ _ HL) as Hr1.
  pose proof (strips_to_head_not_1 _ _ _ HV) as Hc1.
  destruct (strips_to_last_two _ _ _ HL) as [Hrows Hcols].
  subst lhs_dim rows cols. rewrite Hrows, Hcols.
  assert (numel L = r * c) as HnL.
  { unfold numel. rewrite (strips_to_numel _ _ HL).
    unfold shape_numel. simpl. lia. }
  assert (numel V = c) as HnV.
  { unfold numel. rewrite (strips_to_numel _ _ HV).
    unfold shape_numel. simpl. lia. }
  split.
  { destruct HL as (k & -> & _). rewrite length_app. simpl. lia. }
  split; [done |]. split; [done |]. split; [nia | lia].
Qed.

(** * Further concrete calls on the reference runtime *)

Module MoreExamples.
Import Reference.

Definition int_2x3 : Tensor Z := mkTensor [2; 3] Int [1; 2; 3; 4; 5; 6].
Definition int_3x2 : Tensor Z := mkTensor [3; 2] Int [1; 10; 100; 1; 10; 100].
Definition out_2x3 : Tensor Z := mkTensor [2; 3] Int [0; 0; 0; 0; 0; 0].
Definition half_2 : Tensor Z := mkTensor [2] Half [3; 4].
Definition half_out : Tensor Z := mkTensor [2] Half [0; 0].
Definition three : Scalar Z := mkScalar IsIntegral 3.
Definition single_3 : Tensor Z := mkTensor [1; 1] Int [3].
Definition out_4 : Tensor Z := mkTensor [4] Int [0; 0; 0; 0].

Lemma homogeneous_int (O : Tensor Z) :
  scalar_type O = Int ->
  homogeneous_not_half Examples.matrix_2x2 single_3 O.
Proof. intros HO. unfold homogeneous_not_half. by rewrite HO. Defined.

Lemma wf_matrix_2x2 : wf_tensor Examples.matrix_2x2.
Proof.
  split; [unfold wf_shape; simpl; repeat constructor; lia | reflexivity].
Defined.

Lemma wf_row_1x2 : wf_tensor Examples.row_1x2.
Proof.
  split; [unfold wf_shape; simpl; repeat constructor; lia | reflexivity].
Defined.

Lemma wf_int_2x3 : wf_tensor int_2x3.
Proof.
  split; [unfold wf_shape; simpl; repeat constructor; lia | reflexivity].
Defined.

Lemma wf_int_3x2 : wf_tensor int_3x2.
Proof.
  split; [unfold wf_shape; simpl; repeat constructor; lia | reflexivity].
Defined.
End MoreExamples.

Lemma sizes_match_ignoring_leading_1s_equivalence_witness :
  sizes_match_ignoring_leading_1s [1; 1; 6] [6] = true.
Proof.
  apply (sizes_match_ignoring_leading_1s_equivalence [1; 1; 6] [1; 6] [6]);
    reflexivity.
Defined.

Lemma sizes_match_ignoring_leading_1s_shapes_witness :
  shape_numel [1; 1; 2; 3] = shape_numel [1; 2; 3].
Proof.
  apply (sizes_match_ignoring_leading_1s_shapes [1; 1; 2; 3] [1; 2; 3]).
  reflexivity.
Defined.

Lemma opt_mul_out_terminates_witness :
  opt_mul_out_fuel (RT := Reference.runtime) 5 Examples.three_objects 0 1 2
  = Some (opt_mul_out (RT := Reference.runtime) Examples.three_objects 0 1 2).
Proof.
  destruct (opt_mul_out_terminates (RT := Reference.runtime) 5
              Examples.three_objects 0 1 2) as [Hfuel _].
  - lia.
  - exact Hfuel.
Defined.

Lemma opt_mul_out_failure_modes_witness :
  opt_mul_out (RT := Reference.runtime)
    (call_store (RT := Reference.runtime) Examples.float_2x3
       Examples.float_2x1 Examples.out_2x2) 0 1 2
  = mkResult (RT := Reference.runtime) (Failed InvalidArgument)
      (call_store (RT := Reference.runtime) Examples.float_2x3
         Examples.float_2x1 Examples.out_2x2).
Proof.
  apply (opt_mul_out_failure_modes (RT := Reference.runtime)).
  discriminate.
Defined.

Lemma multiply_success_shape_witness :
  scalar_type (multiply (RT := Reference.runtime) Examples.matrix_2x2
                 Examples.vector_2 Examples.out_2x2).2 = Int /\
  length (data (multiply (RT := Reference.runtime) Examples.matrix_2x2
                  Examples.vector_2 Examples.out_2x2).2) = 4%nat.
Proof.
  destruct (multiply_success_shape (RT := Reference.runtime)
              Examples.matrix_2x2 Examples.vector_2 Examples.out_2x2
              eq_refl) as (Hty & Hlen & _).
  split; [exact Hty | exact Hlen].
Defined.

Lemma flatten_is_positional_witness :
  multiply (RT := Reference.runtime) MoreExamples.int_2x3
    MoreExamples.int_3x2 MoreExamples.out_2x3
  = (Ok, mkTensor [2; 3] Int [1; 20; 300; 4; 50; 600]).
Proof.
  rewrite (flatten_is_positional (RT := Reference.runtime)
             MoreExamples.int_2x3 MoreExamples.int_3x2 MoreExamples.out_2x3).
  - reflexivity.
  - reflexivity.
  - exact MoreExamples.wf_int_2x3.
  - exact MoreExamples.wf_int_3x2.
Defined.

Lemma scalar_operator_values_witness :
  multiply_scalar (RT := Reference.runtime) Examples.matrix_2x2
    MoreExamples.three Examples.out_2x2
  = (Ok, mkTensor [2; 2] Int [3; 6; 9; 12]).
Proof.
  destruct (scalar_operator_values (RT := Reference.runtime)
              Examples.matrix_2x2 MoreExamples.three Examples.out_2x2
              eq_refl eq_refl eq_refl MoreExamples.wf_matrix_2x2)
    as [Hvalues _].
  rewrite Hvalues. reflexivity.
Defined.

Lemma scalar_shortcut_equivalence_witness :
  (multiply (RT := Reference.runtime) Examples.matrix_2x2
     MoreExamples.single_3 Examples.out_2x2
   = (Ok, mkTensor [2; 2] Int [3; 6; 9; 12]) /\
   multiply_scalar (RT := Reference.runtime) Examples.matrix_2x2
     MoreExamples.three Examples.out_2x2
   = (Ok, mkTensor [2; 2] Int [3; 6; 9; 12])) /\
  (multiply (RT := Reference.runtime) Examples.matrix_2x2
     MoreExamples.single_3 MoreExamples.out_4
   = (Failed InvalidArgument, MoreExamples.out_4) /\
   multiply_scalar (RT := Reference.runtime) Examples.matrix_2x2
     MoreExamples.three MoreExamples.out_4
   = (Aborted, MoreExamples.out_4)).
Proof.
  split.
  - destruct (scalar_shortcut_equivalence (RT := Reference.runtime)
                Examples.matrix_2x2 MoreExamples.single_3 MoreExamples.three
                Examples.out_2x2 eq_refl
                (MoreExamples.homogeneous_int Examples.out_2x2 eq_refl)
                MoreExamples.wf_matrix_2x2 eq_refl eq_refl eq_refl)
      as [Hobject [Hleft Hright]].
    split; apply injective_projections; simpl;
      [exact Hleft | reflexivity | exact Hright | reflexivity].
  - exact (proj2 (scalar_shortcut_equivalence (RT := Reference.runtime)
                    Examples.matrix_2x2 MoreExamples.single_3
                    MoreExamples.three MoreExamples.out_4 eq_refl
                    (MoreExamples.homogeneous_int MoreExamples.out_4 eq_refl)
                    MoreExamples.wf_matrix_2x2 eq_refl eq_refl eq_refl)).
Defined.

Lemma scalar_operator_in_place_witness :
  store (opt_mul_scalar_out (RT := Reference.runtime)
           Examples.in_place_objects 0 MoreExamples.three 0) !!! 0%nat
  = mkTensor [2; 2] Int [3; 6; 9; 12].
Proof.
  destruct (scalar_operator_in_place (RT := Reference.runtime)
              Examples.in_place_objects 0 MoreExamples.three
              MoreExamples.wf_matrix_2x2) as [_ Hobject].
  etrans; [exact Hobject | reflexivity].
Defined.

Lemma tensor_operator_in_place_witness :
  store (opt_mul_out (RT := Reference.runtime)
           Examples.in_place_objects 0 1 0) !!! 0%nat
  = mkTensor [2; 2] Int [3; 6; 9; 12].
Proof.
  destruct (tensor_operator_in_place (RT := Reference.runtime)
              Examples.in_place_objects 0 1) as [_ Hobject].
  - discriminate.
  - exact MoreExamples.wf_matrix_2x2.
  - left. split; [reflexivity |].
    unfold homogeneous_not_half. simpl. repeat split; discriminate.
  - etrans; [exact Hobject | reflexivity].
Defined.

Lemma row_broadcast_agrees_with_general_witness :
  data (multiply (RT := Reference.runtime) Examples.matrix_2x2
          Examples.row_1x2 Examples.out_2x2).2
  = data (multiply_general (RT := Reference.runtime) Examples.matrix_2x2
            Examples.row_1x2 Examples.out_2x2).2.
Proof.
  apply (row_broadcast_agrees_with_general (RT := Reference.runtime)
           Examples.matrix_2x2 Examples.row_1x2 Examples.out_2x2).
  - apply Examples.promote_same.
  - apply Examples.can_cast_same.
  - apply Examples.mul_comm.
  - left. reflexivity.
  - exact MoreExamples.wf_matrix_2x2.
  - exact MoreExamples.wf_row_1x2.
  - reflexivity.
  - reflexivity.
Defined.

Lemma mixed_types_take_general_path_witness :
  multiply (RT := Reference.runtime) Examples.int_2x3 Examples.float_2x1
    Examples.float_out
  = multiply_general (RT := Reference.runtime) Examples.int_2x3
      Examples.float_2x1 Examples.float_out.
Proof.
  apply (mixed_types_take_general_path (RT := Reference.runtime)
           Examples.int_2x3 Examples.float_2x1 Examples.float_out).
  unfold homogeneous_not_half. simpl. intros (H & _). discriminate.
Defined.

Lemma half_multiplies_in_float_witness :
  multiply (RT := Reference.runtime) MoreExamples.half_2 MoreExamples.half_2
    MoreExamples.half_out
  = (Ok, mkTensor [2] Half [9; 16]).
Proof.
  rewrite (half_multiplies_in_float (RT := Reference.runtime)
             MoreExamples.half_2 MoreExamples.half_2 MoreExamples.half_out
             MoreExamples.half_2 MoreExamples.half_2 [2]);
    reflexivity.
Defined.

Lemma flatten_accepts_unbroadcastable_shapes_witness :
  (multiply (RT := Reference.runtime) MoreExamples.int_2x3
     MoreExamples.int_3x2 MoreExamples.out_2x3).1 = Ok /\
  multiply_general (RT := Reference.runtime) MoreExamples.int_2x3
    MoreExamples.int_3x2 MoreExamples.out_2x3
  = (Failed InvalidArgument, MoreExamples.out_2x3).
Proof.
  destruct (flatten_accepts_unbroadcastable_shapes (RT := Reference.runtime)
              MoreExamples.int_2x3 MoreExamples.int_3x2 MoreExamples.out_2x3
              eq_refl eq_refl eq_refl) as (Hok & _ & Hgeneral).
  split; [exact Hok | exact Hgeneral].
Defined.

Lemma fast_path_bounds_witness :
  numel Examples.matrix_2x2 = 2 * 2 /\ numel Examples.vector_2 = 2.
Proof.
  destruct (proj2 (fast_path_bounds (RT := Reference.runtime)
                     Examples.matrix_2x2 Examples.vector_2 Examples.out_2x2
                     Examples.matrix_2x2 Examples.vector_2))
    as (_ & Hmatrix & Hvector & _).
  - left. repeat split; reflexivity.
  - unfold wf_shape. simpl. repeat constructor; lia.
  - split; [exact Hmatrix | exact Hvector].
Defined.
